(** * Connect Four bitboard: [internal/position]

    A shallow embedding of the Go package [position] (the bitboard
    [Position], its two parsers, the move engine, the win detector and the
    canonical key) together with the properties its specification states.

    Conventions of the embedding.
    - A [uint64] is a [Z] in [0, 2^64); every operation that can leave that
      range in Go wraps, and the wrap is written out ([wrap64]).
    - An [int] is a [Z]; the one counter that is incremented without a bound
      in the source ([moves]) wraps as the signed 64-bit integer of a 64-bit
      platform ([int_add]).  The other [int] computations (cell indices,
      column numbers) are bounded by the geometry of the board.
    - A shift count is an [int]; Go panics on a negative count, which no call
      of this package produces (columns come from [0..9]), and yields 0 for
      a count of 64 or more, which [shl64] and [shr64] reproduce.
    - A method with a pointer receiver that mutates it ([Play]) takes the
      position and returns the new one.
    - A Go string ranged over yields (byte offset, rune) pairs.  The input of
      a parser is taken as the sequence of its runes, and the byte offsets are
      recomputed from the UTF-8 width of each rune ([rune_len]).  Bytes that
      are no UTF-8 (each read as U+FFFD, one byte wide) are not modelled. *)

From Stdlib Require Import ZArith List Bool Lia String Ascii Btauto.
From coqutil Require Import Z.bitblast.
Import ListNotations.

Local Open Scope Z_scope.
Local Open Scope bool_scope.

(** ** Machine integers *)

Definition wrap64 (z : Z) : Z := z mod 2 ^ 64.

Definition add64 (a b : Z) : Z := wrap64 (a + b).
Definition sub64 (a b : Z) : Z := wrap64 (a - b).
Definition mul64 (a b : Z) : Z := wrap64 (a * b).
Definition shl64 (a n : Z) : Z := wrap64 (Z.shiftl a n).
Definition shr64 (a n : Z) : Z := Z.shiftr a n.
Definition not64 (a : Z) : Z := wrap64 (Z.lnot a).

(** Signed 64-bit addition of Go's [int]. *)
Definition int_add (a b : Z) : Z := (a + b + 2 ^ 63) mod 2 ^ 64 - 2 ^ 63.

(** The range of a [uint64]. *)
Definition is_u64 (z : Z) : Prop := 0 <= z < 2 ^ 64.

(** ** Runes and strings *)

Definition rune := Z.

(** Bytes the UTF-8 encoding of a rune takes: what the index of a
    [for i, c := range s] loop advances by. *)
Definition rune_len (r : rune) : Z :=
  if r <? 128 then 1 else if r <? 2048 then 2 else if r <? 65536 then 3 else 4.

(** The runes of an ASCII literal. *)
Definition runes_of (s : string) : list rune :=
  map (fun a => Z.of_nat (nat_of_ascii a)) (list_ascii_of_string s).

(** [strings.ToLower] on one rune.  Only the ASCII letters are mapped here: a
    rune outside ASCII never lowers to ['.'], ['o'] or ['x'], the only runes
    the caller looks for. *)
Definition to_lower (r : rune) : rune :=
  if (65 <=? r) && (r <=? 90) then r + 32 else r.

(** ** Errors *)

Inductive PositionParsingError : Type :=
| InvalidBoardStringLength (Actual Expected : Z)
| InvalidCharacter (Character : rune) (Index : Z)
| InvalidColumn (Column Index : Z)
| InvalidFullColumnMove (Column Index : Z)
| InvalidWinningMove (Column Index : Z).

(** What a parser returns, a position or an error: exactly one is set. *)
Inductive result (A : Type) : Type :=
| Ok (a : A)
| Err (e : PositionParsingError).
Arguments Ok {A} a.
Arguments Err {A} e.

(** ** Geometry *)

Definition W : Z := 7.
Definition H : Z := 6.
Definition BoardSize : Z := W * H.
Definition Centre : Z := Z.quot W 2.
Definition MinScore : Z := Z.quot (- BoardSize) 2 + 3.
Definition MaxScore : Z := Z.quot (BoardSize + 1) 2 + 3.

Record Position : Type := mkPosition {
  Board : Z;   (* uint64: the current player's tiles *)
  Mask : Z;    (* uint64: all occupied tiles *)
  moves : Z    (* int *)
}.

Definition top_mask_col (col : Z) : Z := shl64 1 (H - 1 + col * (H + 1)).
Definition bottom_mask_col (col : Z) : Z := shl64 1 (col * (H + 1)).
Definition column_mask (col : Z) : Z := shl64 (sub64 (shl64 1 H) 1) (col * (H + 1)).

(** The values [0, 1, ..., n-1] a counting loop runs through. *)
Definition upto (n : Z) : list Z := map Z.of_nat (seq 0 (Z.to_nat n)).

Definition bottom_mask : Z :=
  fold_left (fun mask i => Z.lor mask (bottom_mask_col i)) (upto W) 0.

Definition board_mask : Z := mul64 bottom_mask (Z.shiftl 1 H - 1).

Definition NewPosition : Position := mkPosition 0 0 0.

(** ** Win detector *)

Definition compute_winning_position (position mask : Z) : Z :=
  (* vertical *)
  let r := Z.land (Z.land (shl64 position 1) (shl64 position 2)) (shl64 position 3) in
  (* horizontal *)
  let p := Z.land (shl64 position (H + 1)) (shl64 position (2 * (H + 1))) in
  let r := Z.lor r (Z.land p (shl64 position (3 * (H + 1)))) in
  let r := Z.lor r (Z.land p (shr64 position (H + 1))) in
  let p := shr64 p (3 * (H + 1)) in
  let r := Z.lor r (Z.land p (shl64 position (H + 1))) in
  let r := Z.lor r (Z.land p (shr64 position (3 * (H + 1)))) in
  (* first diagonal *)
  let p2 := Z.land (shl64 position H) (shl64 position (2 * H)) in
  let r := Z.lor r (Z.land p2 (shl64 position (3 * H))) in
  let r := Z.lor r (Z.land p2 (shr64 position H)) in
  let p2 := shr64 p2 (3 * H) in
  let r := Z.lor r (Z.land p2 (shl64 position H)) in
  let r := Z.lor r (Z.land p2 (shr64 position (3 * H))) in
  (* second diagonal *)
  let p3 := Z.land (shl64 position (H + 2)) (shl64 position (2 * (H + 2))) in
  let r := Z.lor r (Z.land p3 (shl64 position (3 * (H + 2)))) in
  let r := Z.lor r (Z.land p3 (shr64 position (H + 2))) in
  let p3 := shr64 p3 (3 * (H + 2)) in
  let r := Z.lor r (Z.land p3 (shl64 position (H + 2))) in
  let r := Z.lor r (Z.land p3 (shr64 position (3 * (H + 2)))) in
  Z.land r (Z.lxor board_mask mask).

Definition winning_positions (self : Position) : Z :=
  compute_winning_position (Board self) (Mask self).

Definition opponent_winning_position (self : Position) : Z :=
  compute_winning_position (Z.lxor (Board self) (Mask self)) (Mask self).

(** [for mask != 0 { mask &= mask - 1; count++ }] with a [uint8] counter.
    Each round clears one bit, so 64 rounds always reach [mask = 0]
    (see [count_ones_popcount]). *)
Fixpoint count_ones_loop (fuel : nat) (mask count : Z) : Z :=
  match fuel with
  | O => count
  | S fuel' =>
      if mask =? 0 then count
      else count_ones_loop fuel' (Z.land mask (sub64 mask 1)) ((count + 1) mod 2 ^ 8)
  end.

Definition count_ones (mask : Z) : Z := count_ones_loop 64 mask 0.

Definition compute_won_position (position : Z) : bool :=
  let m := Z.land position (shr64 position (H + 1)) in
  if 0 <? Z.land m (shr64 m (2 * (H + 1))) then true else
  let m2 := Z.land position (shr64 position H) in
  if 0 <? Z.land m2 (shr64 m2 (2 * H)) then true else
  let m3 := Z.land position (shr64 position (H + 2)) in
  if 0 <? Z.land m3 (shr64 m3 (2 * (H + 2))) then true else
  let m4 := Z.land position (shr64 position 1) in
  if 0 <? Z.land m4 (shr64 m4 2) then true else false.

Definition IsWonPosition (self : Position) : bool :=
  compute_won_position (Board self) ||
  compute_won_position (Z.lxor (Board self) (Mask self)).

(** ** Move engine *)

(** [self.Mask&top_mask_col(col) != 0], as the source has it. *)
Definition IsPlayable (self : Position) (col : Z) : bool :=
  negb (Z.land (Mask self) (top_mask_col col) =? 0).

(** [self.Mask + bottom_mask()&board_mask()]: in Go [&] binds tighter than
    [+], so the conjunction is taken first and the sum is not masked. *)
Definition Possible (self : Position) : Z :=
  add64 (Mask self) (Z.land bottom_mask board_mask).

Definition IsWinningMove (self : Position) (col : Z) : bool :=
  0 <? Z.land (Z.land (winning_positions self) (Possible self)) (column_mask col).

Definition CanWinNext (self : Position) : bool :=
  0 <? Z.land (winning_positions self) (Possible self).

Definition Play (self : Position) (col : Z) : Position :=
  let board := Z.lxor (Board self) (Mask self) in
  let mask := Z.lor (Mask self) (add64 (Mask self) (bottom_mask_col col)) in
  mkPosition board mask (int_add (moves self) 1).

Definition PossibleNonLosingMoves (self : Position) : Z :=
  let possible := Possible self in
  let opponent_wins := opponent_winning_position self in
  let forced_moves := Z.land possible opponent_wins in
  if 0 <? forced_moves then
    if 0 <? Z.land forced_moves (sub64 forced_moves 1) then 0
    else Z.land forced_moves (not64 (shr64 opponent_wins 1))
  else Z.land possible (not64 (shr64 opponent_wins 1)).

Definition ScoreMove (self : Position) (move_bit : Z) : Z :=
  count_ones (compute_winning_position (Z.lor (Board self) move_bit) (Mask self)).

(** ** Canonical key *)

(** One round of the column-swapping loop, on one of the two bitmasks. *)
Definition mirror_round (x acc col : Z) : Z :=
  let mirrored_col := W - 1 - col in
  let shift := (mirrored_col - col) * (H + 1) in
  Z.lor acc
    (Z.lor (shl64 (Z.land x (column_mask col)) shift)
           (shr64 (Z.land x (column_mask mirrored_col)) shift)).

Definition get_mirrored_bitmasks (self : Position) : Z * Z :=
  let '(mirrored_position, mirrored_mask) :=
    fold_left
      (fun '(mp, mm) col =>
         (mirror_round (Board self) mp col, mirror_round (Mask self) mm col))
      (upto Centre) (0, 0) in
  if Z.land W 1 =? 1 then
    (Z.lor mirrored_position (Z.land (Board self) (column_mask Centre)),
     Z.lor mirrored_mask (Z.land (Mask self) (column_mask Centre)))
  else (mirrored_position, mirrored_mask).

Definition GetKey (self : Position) : Z :=
  let key := add64 (Board self) (Mask self) in
  let '(mirrored_position, mirrored_mask) := get_mirrored_bitmasks self in
  let mirrored_key := add64 mirrored_position mirrored_mask in
  if mirrored_key <? key then mirrored_key else key.

Definition GetMoves (self : Position) : Z := moves self.

(** ** Parsers *)

Definition significant (c : rune) : bool :=
  (c =? 46) || (c =? 111) || (c =? 120).     (* '.', 'o', 'x' *)

(** The second loop of [PositionFromBoardString], from index [i] on. *)
Fixpoint board_loop (chars : list rune) (i board mask mv : Z) : Position :=
  match chars with
  | [] => mkPosition board mask mv
  | c :: rest =>
      if c =? 46 then board_loop rest (i + 1) board mask mv
      else
        let row := H - Z.quot i W - 1 in
        let col := Z.rem i W in
        let bit_index := row + col * (H + 1) in
        let board_bit := if c =? 120 then 1 else 0 in
        board_loop rest (i + 1)
          (Z.lor board (shl64 board_bit bit_index))
          (Z.lor mask (shl64 1 bit_index))
          (int_add mv 1)
  end.

Definition PositionFromBoardString (board_string : list rune) : result Position :=
  let chars := filter significant (map to_lower board_string) in
  let len := Z.of_nat (List.length chars) in
  if negb (len =? BoardSize) then Err (InvalidBoardStringLength len BoardSize)
  else Ok (board_loop chars 0 0 0 0).

(** The body of the loop of [PositionFromMoves] at byte offset [i] on rune
    [c]: the error it returns, or the position and the column it goes on
    with.  A field a composite literal leaves out is zero. *)
Definition move_step (position : Position) (i : Z) (c : rune)
  : result (Position * Z) :=
  if (48 <=? c) && (c <=? 57) then
    let col := c - 48 in
    if negb (IsPlayable position col) then Err (InvalidFullColumnMove (col + 1) i)
    else if IsWinningMove position col then Err (InvalidWinningMove col 0)
    else Ok (Play position col, col)
  else Err (InvalidCharacter c i).

Fixpoint moves_loop (rs : list rune) (i : Z) (position : Position) (col : Z)
  : result Position :=
  match rs with
  | [] => if col =? -1 then Err (InvalidColumn col 0) else Ok position
  | c :: rest =>
      match move_step position i c with
      | Err e => Err e
      | Ok (position', col') => moves_loop rest (i + rune_len c) position' col'
      end
  end.

Definition PositionFromMoves (move_sequence : list rune) : result Position :=
  moves_loop move_sequence 0 NewPosition (-1).

(** * Specification vocabulary *)

(** The population count of a non-negative integer. *)
Fixpoint Pos_popcount (p : positive) : Z :=
  match p with
  | xH => 1
  | xO q => Pos_popcount q
  | xI q => 1 + Pos_popcount q
  end.

Definition popcount (z : Z) : Z :=
  match z with
  | Zpos p => Pos_popcount p
  | _ => 0
  end.

(** [a] is a bitwise subset of [b]. *)
Definition subset (a b : Z) : Prop := Z.land a b = a.

(** The representation invariants of a [Position]: the current player's
    tiles are occupied tiles, the move counter counts the occupied tiles,
    and no tile lies outside the usable cells. *)
Definition well_formed (p : Position) : Prop :=
  subset (Board p) (Mask p) /\
  moves p = popcount (Mask p) /\
  subset (Mask p) board_mask /\
  subset (Board p) board_mask.

(** The occupancy of a board whose column [c] holds its lowest [hs[c]]
    cells: discs stack from the bottom of a column. *)
Fixpoint columns (hs : list Z) : Z :=
  match hs with
  | [] => 0
  | h :: rest => Z.ones h + 2 ^ (H + 1) * columns rest
  end.

(** The discs on a board of these column heights. *)
Fixpoint discs (hs : list Z) : Z :=
  match hs with
  | [] => 0
  | h :: rest => h + discs rest
  end.

(** Column heights of a board: at most [H] discs in a column. *)
Definition heights (hs : list Z) : Prop := Forall (fun h => 0 <= h <= H) hs.

(** The positions of a game: the empty one, and the ones [Play] makes from
    them in a column of the board that has room left, that is whose top
    cell is not yet occupied. *)
Inductive reachable : Position -> Prop :=
| reachable_new : reachable NewPosition
| reachable_play p col :
    reachable p -> 0 <= col < W ->
    Z.land (Mask p) (top_mask_col col) = 0 ->
    reachable (Play p col).

(** A position whose occupancy is a stack of discs in each column, counted
    by its move counter. *)
Definition stacked (p : Position) : Prop :=
  exists hs, heights hs /\ Z.of_nat (List.length hs) = W /\
    Mask p = columns hs /\ moves p = discs hs /\ subset (Board p) (Mask p).

(** What [get_mirrored_bitmasks] does to each of the two bitmasks. *)
Definition mirror_bits (x : Z) : Z :=
  let m := fold_left (mirror_round x) (upto Centre) 0 in
  if Z.land W 1 =? 1 then Z.lor m (Z.land x (column_mask Centre)) else m.

(** The position [get_mirrored_bitmasks] describes. *)
Definition mirrored (p : Position) : Position :=
  let '(mirrored_position, mirrored_mask) := get_mirrored_bitmasks p in
  mkPosition mirrored_position mirrored_mask (moves p).

(** ** Example boards

    A board string is written row by row from the top; the bars between the
    rows are not significant and the parser drops them. *)

(** Column 0 is full, the other columns are empty. *)
Definition full_column_board : list rune :=
  runes_of "o......|x......|o......|x......|o......|x......".
Definition full_column : Position := mkPosition 21 63 6.

(** The opponent holds three in a row with both ends open. *)
Definition double_threat_board : list rune :=
  runes_of ".......|.......|.......|.......|.......|x.ooo.x".
Definition double_threat : Position := mkPosition 4398046511105 4398317060097 5.

(** The opponent holds three in a row with one end open. *)
Definition single_threat_board : list rune :=
  runes_of ".......|.......|.......|.......|.......|xooo..x".
Definition single_threat : Position := mkPosition 4398046511105 4398048624769 5.

(** A board no game reaches: a disc floats at the top of column 0, above
    the cell that would complete the current player's row. *)
Definition floating_board : list rune :=
  runes_of "o......|.......|.......|.......|.......|.xxx...".
Definition floating : Position := mkPosition 2113664 2113696 4.

(** [full_column] after one more [Play] in its full column, and the same
    board with its columns, sentinel row included, in reverse order. *)
Definition overfull : Position := Play full_column 0.
Definition overfull_reversed : Position :=
  mkPosition (Z.shiftl 42 42) (Z.shiftl 127 42) 7.

(** The bit the [i]-th significant character of a board string stands for. *)
Definition cell_index (i : Z) : Z := H - Z.quot i W - 1 + Z.rem i W * (H + 1).

(** The usable cells: below the seventh column, and not in a sentinel row. *)
Definition in_board (i : Z) : bool := (i <? W * (H + 1)) && (i mod (H + 1) <? H).

(** ** Vocabulary of the further properties *)

(** What a significant character says of its cell: occupied, and by the
    current player. *)
Definition disc_at (chars : list rune) (k : Z) : bool :=
  negb (nth (Z.to_nat k) chars 46 =? 46).

Definition own_disc_at (chars : list rune) (k : Z) : bool :=
  nth (Z.to_nat k) chars 46 =? 120.

(** The index, among the significant characters, of the cell of row [r]
    and column [c]: rows are written from the top. *)
Definition char_index (r c : Z) : Z := (H - 1 - r) * W + c.

(** Four bits of [x] at distance [d] from one another. *)
Definition aligned (x d : Z) : Prop :=
  exists i, 0 <= i /\ Z.testbit x i = true /\ Z.testbit x (i + d) = true /\
    Z.testbit x (i + 2 * d) = true /\ Z.testbit x (i + 3 * d) = true.

(** The usable cell of row [r] and column [c] is set in [x]. *)
Definition occupied (x r c : Z) : Prop :=
  0 <= r < H /\ 0 <= c < W /\ Z.testbit x (r + c * (H + 1)) = true.

(** The four directions of a line, as steps in row and column: along a
    row, down a diagonal, up a diagonal, up a column. *)
Definition directions : list (Z * Z) := [(0, 1); (-1, 1); (1, 1); (1, 0)].

(** Four cells of [x] in a line on the board. *)
Definition four_in_line (x : Z) : Prop :=
  exists r c dr dc, In (dr, dc) directions /\
    forall k, 0 <= k < 4 -> occupied x (r + k * dr) (c + k * dc).

(** In the window of four cells at distance [d] in which cell [i] is the
    [k]-th, the three other cells are set in [x]. *)
Definition three_of_four (x i d k : Z) : Prop :=
  forall j, 0 <= j < 4 -> j <> k -> Z.testbit x (i + (j - k) * d) = true.

(** A disc on cell [i] completes four in a line of [x]: on top of three in
    its column, or anywhere in a window along a row or a diagonal. *)
Definition completes (x i : Z) : Prop :=
  three_of_four x i 1 3 \/
  exists d k, In d [H + 1; H; H + 2] /\ 0 <= k < 4 /\ three_of_four x i d k.

(** The rounds of [compute_winning_position] for one direction, from the
    mask [r] collected so far. *)
Definition direction_wins (position d r : Z) : Z :=
  let p := Z.land (shl64 position d) (shl64 position (2 * d)) in
  let r := Z.lor r (Z.land p (shl64 position (3 * d))) in
  let r := Z.lor r (Z.land p (shr64 position d)) in
  let p := shr64 p (3 * d) in
  let r := Z.lor r (Z.land p (shl64 position d)) in
  let r := Z.lor r (Z.land p (shr64 position (3 * d))) in
  r.

(** Cell [i] lies in some window of four cells at distance [d] whose three
    other cells are set in [x]. *)
Definition window_bits (x i d : Z) : bool :=
  Z.testbit x (i - d) && Z.testbit x (i - 2 * d) && Z.testbit x (i - 3 * d)
  || Z.testbit x (i - d) && Z.testbit x (i - 2 * d) && Z.testbit x (i + d)
  || Z.testbit x (i + 2 * d) && Z.testbit x (i + d) && Z.testbit x (i - d)
  || Z.testbit x (i + 2 * d) && Z.testbit x (i + d) && Z.testbit x (i + 3 * d).

(** The mask whose column [c] holds the seven bits [ds[c]]. *)
Fixpoint digits (ds : list Z) : Z :=
  match ds with
  | [] => 0
  | d :: rest => d + 2 ^ (H + 1) * digits rest
  end.

(** Digits of seven bits. *)
Definition small_digits (ds : list Z) : Prop := Forall (fun d => 0 <= d < 2 ^ (H + 1)) ds.

(** The height of column [c] of a board of heights [hs]. *)
Definition height (hs : list Z) (c : Z) : Z := nth (Z.to_nat c) hs 0.

(** Discs stacked in the columns, some of them the current player's: what
    the key of a position is computed from. *)
Definition piled (board mask : Z) (hs : list Z) : Prop :=
  heights hs /\ Z.of_nat (List.length hs) = W /\ mask = columns hs /\ subset board mask.

(** ** More example positions *)

(** Three discs each in columns 3 and 4, played in turn. *)
Definition three_each : Position := fold_left Play [3; 4; 3; 4; 3; 4] NewPosition.

(** Column 3 filled by six moves. *)
Definition six_in_column : Position := fold_left Play [3; 3; 3; 3; 3; 3] NewPosition.

(** The current player holds the bottom row of columns 0 to 3. *)
Definition won_row : Position := mkPosition 2113665 2146691 7.


(** * Bit-level lemmas *)

Section Popcount.

Lemma Pos_popcount_pos p : 0 < Pos_popcount p.
Proof. induction p; cbn [Pos_popcount]; lia. Qed.

Lemma popcount_nonneg z : 0 <= popcount z.
Proof.
  destruct z as [|p|p]; cbn [popcount]; try lia.
  pose proof (Pos_popcount_pos p). lia.
Qed.

Lemma popcount_double z : 0 <= z -> popcount (2 * z) = popcount z.
Proof. destruct z; intros Hz; try reflexivity; lia. Qed.

Lemma popcount_succ_double z : 0 <= z -> popcount (2 * z + 1) = popcount z + 1.
Proof.
  destruct z as [|p|p]; intros Hz; try reflexivity; [|lia].
  change (1 + Pos_popcount p = Pos_popcount p + 1). lia.
Qed.

Lemma popcount_zero z : 0 <= z -> popcount z = 0 -> z = 0.
Proof.
  destruct z as [|p|p]; cbn [popcount]; intros Hz Hc; trivial; try lia.
  pose proof (Pos_popcount_pos p). lia.
Qed.

Lemma popcount_pos z : 0 < z -> 0 < popcount z.
Proof.
  destruct z as [|p|p]; cbn [popcount]; intros Hz; try lia.
  apply Pos_popcount_pos.
Qed.

(** Low and high parts that do not overlap are counted separately. *)
Lemma popcount_split n : 0 <= n -> forall a b,
  0 <= a < 2 ^ n -> 0 <= b -> popcount (a + 2 ^ n * b) = popcount a + popcount b.
Proof.
  intros Hn. pattern n. apply natlike_ind; trivial; clear n Hn.
  - intros a b Ha Hb. replace a with 0 by (simpl in Ha; lia).
    now rewrite Z.pow_0_r, Z.mul_1_l.
  - intros n Hn IH a b Ha Hb.
    rewrite Z.pow_succ_r in * by trivial.
    pose proof (Z.div_mod a 2 ltac:(lia)) as Hd.
    pose proof (Z.mod_pos_bound a 2 ltac:(lia)) as Hm.
    assert (Hq : 0 <= a / 2 < 2 ^ n) by (split; [apply Z.div_pos|apply Z.div_lt_upper_bound]; lia).
    assert (Hs : 0 <= a / 2 + 2 ^ n * b) by nia.
    destruct (Z.eq_dec (a mod 2) 0) as [E|E].
    + replace (a + 2 * 2 ^ n * b) with (2 * (a / 2 + 2 ^ n * b)) by lia.
      rewrite popcount_double, IH by trivial.
      replace a with (2 * (a / 2)) at 2 by lia.
      rewrite popcount_double; lia.
    + replace (a + 2 * 2 ^ n * b) with (2 * (a / 2 + 2 ^ n * b) + 1) by lia.
      rewrite popcount_succ_double, IH by trivial.
      replace a with (2 * (a / 2) + 1) at 2 by lia.
      rewrite popcount_succ_double; lia.
Qed.

Lemma popcount_ones n : 0 <= n -> popcount (Z.ones n) = n.
Proof.
  intros Hn. pattern n. apply natlike_ind; trivial; clear n Hn.
  intros n Hn IH. rewrite Z.ones_equiv in *.
  replace (Z.pred (2 ^ Z.succ n)) with (2 * Z.pred (2 ^ n) + 1)
    by (rewrite Z.pow_succ_r; lia).
  rewrite popcount_succ_double; [lia|]. pose proof (Z.pow_pos_nonneg 2 n); lia.
Qed.

Lemma land_double_odd a b : Z.land (2 * a) (2 * b + 1) = 2 * Z.land a b.
Proof.
  apply Z.bits_inj'; intros i Hi. rewrite Z.land_spec.
  destruct (Z.eq_dec i 0) as [->|Hne].
  - now rewrite !Z.testbit_even_0.
  - replace i with (Z.succ (i - 1)) by lia.
    now rewrite !Z.testbit_even_succ, Z.testbit_odd_succ, Z.land_spec by lia.
Qed.

Lemma land_odd_double a : Z.land (2 * a + 1) (2 * a) = 2 * a.
Proof.
  apply Z.bits_inj'; intros i Hi. rewrite Z.land_spec.
  destruct (Z.eq_dec i 0) as [->|Hne].
  - now rewrite Z.testbit_even_0, Z.testbit_odd_0.
  - replace i with (Z.succ (i - 1)) by lia.
    rewrite Z.testbit_even_succ, Z.testbit_odd_succ by lia.
    apply andb_diag.
Qed.

(** [f & (f - 1)] clears the lowest set bit of [f]. *)
Lemma Pos_popcount_clear_lowest p :
  popcount (Z.land (Zpos p) (Zpos p - 1)) = Pos_popcount p - 1.
Proof.
  induction p as [p IH|p IH|].
  - change (Zpos p~1) with (2 * Zpos p + 1).
    replace (2 * Zpos p + 1 - 1) with (2 * Zpos p) by lia.
    rewrite land_odd_double, popcount_double by lia.
    cbn [popcount Pos_popcount]. lia.
  - change (Zpos p~0) with (2 * Zpos p).
    replace (2 * Zpos p - 1) with (2 * (Zpos p - 1) + 1) by lia.
    rewrite land_double_odd, popcount_double, IH; [reflexivity|].
    apply Z.land_nonneg; lia.
  - reflexivity.
Qed.

Lemma popcount_clear_lowest f :
  0 < f -> popcount (Z.land f (f - 1)) = popcount f - 1.
Proof. destruct f; try lia. intros _. apply Pos_popcount_clear_lowest. Qed.

Lemma popcount_set_bit m k :
  0 <= m -> 0 <= k -> Z.testbit m k = false ->
  popcount (Z.lor m (2 ^ k)) = popcount m + 1.
Proof.
  intros Hm Hk Hb.
  assert (Hp : 0 < 2 ^ k) by (apply Z.pow_pos_nonneg; lia).
  pose proof (Z.div_mod m (2 ^ k) ltac:(lia)) as Hd.
  pose proof (Z.mod_pos_bound m (2 ^ k) Hp) as Hlo.
  assert (Hhi : 0 <= m / 2 ^ k) by (apply Z.div_pos; lia).
  assert (Hev : (m / 2 ^ k) mod 2 = 0) by (now apply Z.testbit_false).
  pose proof (Z.div_mod (m / 2 ^ k) 2 ltac:(lia)) as Hd2.
  assert (Hh2 : 0 <= m / 2 ^ k / 2) by (apply Z.div_pos; lia).
  rewrite Z.or_to_plus.
  - replace (m + 2 ^ k) with (m mod 2 ^ k + 2 ^ k * (2 * (m / 2 ^ k / 2) + 1)) by lia.
    replace m with (m mod 2 ^ k + 2 ^ k * (2 * (m / 2 ^ k / 2))) at 3 by lia.
    rewrite !popcount_split, popcount_succ_double, popcount_double by lia. lia.
  - Z.bitblast.
    destruct (Z.eqb_spec k i) as [<-|]; [now rewrite Hb|btauto].
Qed.

Lemma upto_succ n : 0 <= n -> upto (Z.succ n) = upto n ++ [n].
Proof.
  intros Hn. unfold upto. rewrite Z2Nat.inj_succ, seq_S, map_app by trivial.
  cbn [map Nat.add]. now rewrite Z2Nat.id.
Qed.

Lemma upto_bounds n i : In i (upto n) -> 0 <= i < n.
Proof.
  unfold upto. intros (k & <- & Hk%in_seq)%in_map_iff. lia.
Qed.

(** [popcount] counts the bits that are set. *)
Lemma popcount_testbits n : 0 <= n -> forall z, 0 <= z < 2 ^ n ->
  popcount z = Z.of_nat (List.length (filter (Z.testbit z) (upto n))).
Proof.
  intros Hn. pattern n. apply natlike_ind; trivial; clear n Hn.
  - intros z Hz. replace z with 0 by (cbn in Hz; lia). reflexivity.
  - intros n Hn IH z Hz. rewrite Z.pow_succ_r in Hz by trivial.
    assert (Hp : 0 < 2 ^ n) by (apply Z.pow_pos_nonneg; lia).
    pose proof (Z.div_mod z (2 ^ n) ltac:(lia)) as Hd.
    pose proof (Z.mod_pos_bound z (2 ^ n) Hp) as Hlo.
    assert (Hhi : 0 <= z / 2 ^ n < 2)
      by (split; [apply Z.div_pos|apply Z.div_lt_upper_bound]; lia).
    rewrite upto_succ, filter_app, length_app, Nat2Z.inj_add by trivial.
    rewrite (filter_ext_in (Z.testbit z) (Z.testbit (z mod 2 ^ n))).
    + rewrite <- IH by trivial.
      replace (popcount z) with (popcount (z mod 2 ^ n + 2 ^ n * (z / 2 ^ n)))
        by (f_equal; lia).
      rewrite popcount_split by lia. f_equal. cbn [filter].
      rewrite (Z.testbit_eqb z n), Z.mod_small by lia.
      assert (Hb : z / 2 ^ n = 0 \/ z / 2 ^ n = 1) by lia.
      destruct Hb as [->| ->]; reflexivity.
    + intros i Hi%upto_bounds. now rewrite Z.mod_pow2_bits_low.
Qed.

End Popcount.

Section Words.

Lemma wrap64_range z : is_u64 (wrap64 z).
Proof. apply Z.mod_pos_bound. reflexivity. Qed.

Lemma wrap64_small z : is_u64 z -> wrap64 z = z.
Proof. apply Z.mod_small. Qed.

Lemma testbit_wrap64 z i : Z.testbit (wrap64 z) i = (i <? 64) && Z.testbit z i.
Proof. unfold wrap64. now rewrite Z.testbit_mod_pow2. Qed.

(** A conjunction with a [uint64] is a [uint64], whatever the other side. *)
Lemma land_u64_l a b : is_u64 a -> is_u64 (Z.land a b).
Proof.
  intros Ha. rewrite <- (wrap64_small a Ha).
  replace (Z.land (wrap64 a) b) with (wrap64 (Z.land (wrap64 a) b)).
  - apply wrap64_range.
  - apply Z.bits_inj'; intros i Hi.
    rewrite !testbit_wrap64, Z.land_spec, testbit_wrap64. btauto.
Qed.

Lemma shl64_1_small k : 0 <= k < 64 -> shl64 1 k = 2 ^ k.
Proof.
  intros Hk. unfold shl64. rewrite Z.shiftl_1_l. apply wrap64_small.
  split; [apply Z.pow_nonneg; lia|apply Z.pow_lt_mono_r; lia].
Qed.

Lemma shl64_0 k : shl64 0 k = 0.
Proof. unfold shl64. now rewrite Z.shiftl_0_l. Qed.

Lemma int_add_small a b :
  - 2 ^ 63 <= a + b < 2 ^ 63 -> int_add a b = a + b.
Proof. intros Hr. unfold int_add. rewrite Z.mod_small; lia. Qed.

Lemma subset_testbit a b i :
  subset a b -> Z.testbit a i = true -> Z.testbit b i = true.
Proof.
  unfold subset. intros Hs Ha. rewrite <- Hs, Z.land_spec in Ha.
  now apply andb_true_iff in Ha.
Qed.

Lemma subset_bits a b :
  (forall i, 0 <= i -> Z.testbit a i = true -> Z.testbit b i = true) -> subset a b.
Proof.
  intros Hb. apply Z.bits_inj'; intros i Hi. rewrite Z.land_spec.
  specialize (Hb i Hi). destruct (Z.testbit a i); [now rewrite Hb|reflexivity].
Qed.

End Words.

(** * Geometry of the masks *)

Section Geometry.

Lemma upto_In n i : 0 <= i < n -> In i (upto n).
Proof.
  intros Hi. unfold upto. apply in_map_iff. exists (Z.to_nat i).
  split; [lia|]. apply in_seq. lia.
Qed.

(** A check that holds on every value of a counting loop holds below its bound. *)
Lemma checked_upto (P : Z -> bool) n :
  forallb P (upto n) = true -> forall i, 0 <= i < n -> P i = true.
Proof. intros Hall i Hi. rewrite forallb_forall in Hall. now apply Hall, upto_In. Qed.

Lemma bottom_mask_value : bottom_mask = 4432676798593.
Proof. reflexivity. Qed.

Lemma board_mask_value : board_mask = 279258638311359.
Proof. reflexivity. Qed.

Lemma testbit_board_mask i : 0 <= i -> Z.testbit board_mask i = in_board i.
Proof.
  intros Hi. destruct (Z.lt_ge_cases i 49) as [Hlt|Hge].
  - apply Bool.eqb_prop.
    apply (checked_upto (fun i => Bool.eqb (Z.testbit board_mask i) (in_board i)) 49);
      [vm_compute; reflexivity|lia].
  - unfold in_board. replace (i <? W * (H + 1)) with false
      by (symmetry; apply Z.ltb_ge; exact Hge).
    apply Z.bits_above_log2; [rewrite board_mask_value; lia|].
    rewrite board_mask_value. change (Z.log2 279258638311359) with 47. lia.
Qed.

Lemma board_mask_cell r c :
  0 <= r < H -> 0 <= c < W -> Z.testbit board_mask (r + c * (H + 1)) = true.
Proof.
  unfold H, W. intros Hr Hc. rewrite testbit_board_mask by lia.
  unfold in_board, H, W. apply andb_true_iff; split; apply Z.ltb_lt; [lia|].
  change (6 + 1) with 7. rewrite Z.mod_add, Z.mod_small; lia.
Qed.

Lemma board_mask_sentinel c :
  0 <= c -> Z.testbit board_mask (H + c * (H + 1)) = false.
Proof.
  unfold H. intros Hc. rewrite testbit_board_mask by lia.
  unfold in_board, H, W. apply andb_false_iff; right. apply Z.ltb_ge.
  change (6 + 1) with 7. rewrite Z.mod_add, Z.mod_small; lia.
Qed.

Lemma board_mask_u64 : is_u64 board_mask.
Proof. rewrite board_mask_value. unfold is_u64. lia. Qed.

Lemma subset_board_mask_range m : 0 <= m -> subset m board_mask -> 0 <= m < 2 ^ 49.
Proof.
  intros Hm Hs. split; trivial.
  destruct (Z.eq_dec m 0) as [->|Hne]; [reflexivity|].
  apply Z.log2_lt_pow2; [lia|].
  destruct (Z.lt_ge_cases (Z.log2 m) 49) as [Hl|Hl]; trivial.
  assert (Hb : Z.testbit m (Z.log2 m) = true) by (apply Z.bit_log2; lia).
  apply (subset_testbit _ _ _ Hs) in Hb.
  rewrite testbit_board_mask in Hb by lia. unfold in_board in Hb.
  apply andb_true_iff in Hb. destruct Hb as [Hb _].
  apply Z.ltb_lt in Hb. unfold W, H in Hb. lia.
Qed.

End Geometry.

(** * Move engine *)

Section MoveEngine.

Lemma land_pow2 m k :
  0 <= k -> Z.land m (2 ^ k) = if Z.testbit m k then 2 ^ k else 0.
Proof.
  intros Hk. destruct (Z.testbit m k) eqn:Hb; Z.bitblast;
    destruct (Z.eqb_spec k i) as [<-|]; rewrite ?Hb; btauto.
Qed.

Lemma top_mask_col_value col :
  0 <= col < W -> top_mask_col col = 2 ^ (H - 1 + col * (H + 1)).
Proof. unfold W, H, top_mask_col. intros Hc. apply shl64_1_small. lia. Qed.

Lemma bottom_mask_col_value col :
  0 <= col < W -> bottom_mask_col col = 2 ^ (col * (H + 1)).
Proof. unfold W, H, bottom_mask_col. intros Hc. apply shl64_1_small. lia. Qed.

(** What [IsPlayable] computes: whether the top usable bit of the column is
    set. *)
Lemma IsPlayable_top_bit self col :
  0 <= col < W ->
  IsPlayable self col = Z.testbit (Mask self) (H - 1 + col * (H + 1)).
Proof.
  intros Hc. unfold IsPlayable. rewrite top_mask_col_value by trivial.
  assert (Hk : 0 <= H - 1 + col * (H + 1)) by (unfold W, H in *; lia).
  rewrite land_pow2 by trivial.
  destruct (Z.testbit (Mask self) (H - 1 + col * (H + 1))); [|reflexivity].
  pose proof (Z.pow_pos_nonneg 2 _ ltac:(lia) Hk) as Hp.
  destruct (Z.eqb_spec (2 ^ (H - 1 + col * (H + 1))) 0); [lia|reflexivity].
Qed.

(** No column of the empty position passes [IsPlayable]. *)
Lemma IsPlayable_NewPosition col : IsPlayable NewPosition col = false.
Proof. reflexivity. Qed.

(** What [Possible] computes: the sum of the occupancy and the bottom row,
    wrapped to 64 bits and not masked. *)
Lemma Possible_unmasked self : Possible self = add64 (Mask self) bottom_mask.
Proof. reflexivity. Qed.

End MoveEngine.

(** * Parsing a move sequence *)

Section MoveSequence.

(** An error of the loop body carries the loop index, but for
    [InvalidWinningMove], whose [Index] is left at zero. *)
Lemma move_step_error position i c e :
  move_step position i c = Err e ->
  (exists col, e = InvalidWinningMove col 0) \/
  (exists col, e = InvalidFullColumnMove col i) \/
  e = InvalidCharacter c i.
Proof.
  unfold move_step.
  generalize (IsPlayable position (c - 48)) (IsWinningMove position (c - 48)).
  intros playable winning Hs.
  destruct ((48 <=? c) && (c <=? 57)); [|injection Hs as <-; auto].
  destruct playable; cbn [negb] in Hs.
  - destruct winning; [|discriminate].
    injection Hs as <-. left. now eexists.
  - injection Hs as <-. right; left. now eexists.
Qed.

(** A round that goes on leaves a column between 0 and 9 behind. *)
Lemma move_step_column position i c position' col :
  move_step position i c = Ok (position', col) -> 0 <= col <= 9.
Proof.
  unfold move_step.
  generalize (IsPlayable position (c - 48)) (IsWinningMove position (c - 48))
    (Play position (c - 48)).
  intros playable winning played Hs.
  destruct (48 <=? c) eqn:Hlo; destruct (c <=? 57) eqn:Hhi; cbn [andb] in Hs;
    try discriminate.
  destruct playable; cbn [negb] in Hs; [|discriminate].
  destruct winning; [discriminate|].
  injection Hs as _ <-. apply Z.leb_le in Hlo, Hhi. lia.
Qed.

Lemma moves_loop_InvalidColumn rs : forall i position col c idx,
  moves_loop rs i position col = Err (InvalidColumn c idx) ->
  rs = [] /\ col = -1 /\ c = -1 /\ idx = 0.
Proof.
  induction rs as [|r rs IH]; intros i position col c idx Hl; cbn [moves_loop] in Hl.
  - destruct (Z.eqb_spec col (-1)) as [->|]; [|discriminate].
    injection Hl as <- <-. auto.
  - destruct (move_step position i r) as [[position' col']|e] eqn:Hs.
    + apply move_step_column in Hs. apply IH in Hl. lia.
    + injection Hl as ->. apply move_step_error in Hs.
      destruct Hs as [[? Hs]|[[? Hs]|Hs]]; discriminate.
Qed.

(** From the empty position the first round already returns: no column has
    its top bit set, so a digit is answered [InvalidFullColumnMove]. *)
Lemma PositionFromMoves_first_round c rest :
  PositionFromMoves (c :: rest) =
  if (48 <=? c) && (c <=? 57) then Err (InvalidFullColumnMove (c - 48 + 1) 0)
  else Err (InvalidCharacter c 0).
Proof.
  unfold PositionFromMoves. cbn [moves_loop]. unfold move_step.
  destruct ((48 <=? c) && (c <=? 57)); reflexivity.
Qed.

(** So no move sequence parses: the empty one is answered [InvalidColumn],
    and any other fails in its first round. *)
Lemma PositionFromMoves_fails move_sequence p :
  PositionFromMoves move_sequence <> Ok p.
Proof.
  destruct move_sequence as [|c rest]; [discriminate|].
  rewrite PositionFromMoves_first_round.
  destruct ((48 <=? c) && (c <=? 57)); discriminate.
Qed.

End MoveSequence.

(** * Win detector *)

Section WinDetector.

(** The last step of [compute_winning_position]: a conjunction with
    [board_mask ^ mask]. *)
Lemma compute_winning_position_masked position mask :
  exists r, compute_winning_position position mask = Z.land r (Z.lxor board_mask mask).
Proof. unfold compute_winning_position. now eexists. Qed.

Lemma masked_empty_cells r mask :
  subset mask board_mask ->
  Z.land (Z.land r (Z.lxor board_mask mask)) mask = 0 /\
  subset (Z.land r (Z.lxor board_mask mask)) board_mask.
Proof.
  intros Hs.
  assert (Hb : forall i, Z.testbit mask i = true -> Z.testbit board_mask i = true)
    by (intros i; apply subset_testbit, Hs).
  split; [|unfold subset]; Z.bitblast; specialize (Hb i);
    destruct (Z.testbit mask i); [rewrite Hb by trivial| |rewrite Hb by trivial|]; btauto.
Qed.

End WinDetector.

(** * Non-losing moves *)

Section NonLosing.

Lemma Possible_u64 self : is_u64 (Possible self).
Proof. apply wrap64_range. Qed.

Lemma masked_below x y : Z.land (Z.land x (not64 (shr64 y 1))) (shr64 y 1) = 0.
Proof.
  generalize (shr64 y 1); intros z. unfold not64.
  apply Z.bits_inj'; intros i Hi.
  rewrite !Z.land_spec, testbit_wrap64, Z.lnot_spec, Z.bits_0 by trivial. btauto.
Qed.

End NonLosing.

(** * Parsing a board string *)

Section BoardString.

Lemma cell_index_cell i :
  0 <= i < BoardSize ->
  exists r c, 0 <= r < H /\ 0 <= c < W /\ cell_index i = r + c * (H + 1).
Proof.
  unfold BoardSize, cell_index, W, H. intros Hi.
  exists (6 - Z.quot i 7 - 1), (Z.rem i 7).
  rewrite Z.quot_div_nonneg, Z.rem_mod_nonneg by lia.
  repeat split; Z.div_mod_to_equations; lia.
Qed.

Lemma cell_index_inj i j :
  0 <= i < BoardSize -> 0 <= j < BoardSize -> cell_index i = cell_index j -> i = j.
Proof.
  unfold BoardSize, cell_index, W, H. intros Hi Hj.
  rewrite !Z.quot_div_nonneg, !Z.rem_mod_nonneg by lia.
  Z.div_mod_to_equations. lia.
Qed.

Lemma subset_nonneg m : subset m board_mask -> 0 <= m.
Proof.
  unfold subset. intros <-. apply Z.land_nonneg. right.
  rewrite board_mask_value. lia.
Qed.

Lemma subset_trans a b c : subset a b -> subset b c -> subset a c.
Proof.
  intros Hab Hbc. apply subset_bits. intros i _ Ha.
  eapply subset_testbit; [exact Hbc|]. eapply subset_testbit; eauto.
Qed.

(** The loop keeps the invariants, as long as the cells still to come are
    empty: each round sets a cell of its own. *)
Lemma board_loop_invariant chars : forall i board mask mv,
  0 <= i -> i + Z.of_nat (List.length chars) <= BoardSize ->
  subset board mask -> subset mask board_mask ->
  mv = popcount mask -> mv <= i ->
  (forall j, i <= j < BoardSize -> Z.testbit mask (cell_index j) = false) ->
  well_formed (board_loop chars i board mask mv).
Proof.
  induction chars as [|c rest IH]; intros i board mask mv Hi Hlen Hbm Hm Hmv Hle Hfree;
    cbn [board_loop].
  - unfold well_formed. cbn [Board Mask moves]. eauto using subset_trans.
  - cbn [List.length] in Hlen. destruct (c =? 46).
    + apply IH; trivial; try lia. intros j Hj. apply Hfree. lia.
    + assert (Hi' : 0 <= i < BoardSize) by lia.
      destruct (cell_index_cell i Hi') as (r & col & Hr & Hc & Hk).
      fold (cell_index i). set (k := cell_index i) in *.
      assert (Hk0 : 0 <= k < 64) by (unfold W, H in *; lia).
      pose proof (subset_nonneg mask Hm) as Hm0.
      pose proof (popcount_nonneg mask) as Hp0.
      rewrite (shl64_1_small k Hk0).
      assert (Hbit : subset (shl64 (if c =? 120 then 1 else 0) k) (2 ^ k)).
      { destruct (c =? 120); [rewrite shl64_1_small by trivial|rewrite shl64_0];
          [apply Z.land_diag|apply Z.land_0_l]. }
      apply IH; try lia.
      * apply subset_bits. intros j Hj. rewrite !Z.lor_spec.
        intros [Hb|Hb]%orb_true_iff.
        -- now rewrite (subset_testbit _ _ _ Hbm Hb).
        -- rewrite (subset_testbit _ _ _ Hbit Hb). apply orb_true_r.
      * apply subset_bits. intros j Hj. rewrite Z.lor_spec.
        intros [Hb|Hb]%orb_true_iff; [now apply (subset_testbit _ _ _ Hm)|].
        rewrite Z.pow2_bits_eqb in Hb by lia. apply Z.eqb_eq in Hb. subst j.
        rewrite Hk. now apply board_mask_cell.
      * rewrite popcount_set_bit by (trivial; try lia; apply Hfree; lia).
        unfold BoardSize, W, H in *. rewrite int_add_small; lia.
      * unfold BoardSize, W, H in *. rewrite int_add_small; lia.
      * intros j Hj. rewrite Z.lor_spec, Hfree by lia.
        rewrite Z.pow2_bits_eqb by lia. cbn [orb].
        apply Z.eqb_neq. intros Heq. apply cell_index_inj in Heq; lia.
Qed.

Lemma PositionFromBoardString_length board_string p :
  PositionFromBoardString board_string = Ok p ->
  Z.of_nat (List.length (filter significant (map to_lower board_string))) = BoardSize.
Proof.
  unfold PositionFromBoardString. intros Hp.
  destruct (Z.eqb_spec
    (Z.of_nat (List.length (filter significant (map to_lower board_string)))) BoardSize);
    [trivial|discriminate].
Qed.

(** A board string is accepted when it holds exactly [BoardSize] significant
    characters. *)
Lemma PositionFromBoardString_accepts board_string :
  (exists p, PositionFromBoardString board_string = Ok p) <->
  Z.of_nat (List.length (filter significant (map to_lower board_string))) = BoardSize.
Proof.
  split.
  - intros [p Hp]. now apply PositionFromBoardString_length in Hp.
  - intros Hlen. unfold PositionFromBoardString. rewrite Hlen, Z.eqb_refl.
    now eexists.
Qed.

End BoardString.

(** * Playing a move *)

Section Playing.

Lemma testbit_high lo k i : 0 <= lo < 2 ^ k -> k <= i -> Z.testbit lo i = false.
Proof.
  intros Hlo Hi. destruct (Z.lt_ge_cases k 0) as [Hk|Hk].
  - rewrite Z.pow_neg_r in Hlo; lia.
  - rewrite <- (Z.mod_small lo (2 ^ k) Hlo). apply Z.mod_pow2_bits_high. lia.
Qed.

(** The bits of a number given by its low [k] bits and the rest. *)
Lemma testbit_split k lo x i :
  0 <= k -> 0 <= lo < 2 ^ k -> 0 <= i ->
  Z.testbit (lo + 2 ^ k * x) i = if i <? k then Z.testbit lo i else Z.testbit x (i - k).
Proof.
  intros Hk Hlo Hi.
  replace (lo + 2 ^ k * x) with (Z.lor lo (Z.shiftl x k)).
  - rewrite Z.lor_spec. destruct (Z.ltb_spec i k).
    + rewrite Z.shiftl_spec_low by trivial. apply orb_false_r.
    + rewrite Z.shiftl_spec, (testbit_high lo k i) by trivial. reflexivity.
  - rewrite Z.or_to_plus; [rewrite Z.shiftl_mul_pow2 by trivial; ring|].
    apply Z.bits_inj'; intros j Hj. rewrite Z.land_spec, Z.bits_0.
    destruct (Z.lt_ge_cases j k).
    + rewrite Z.shiftl_spec_low by trivial. apply andb_false_r.
    + now rewrite (testbit_high lo k j).
Qed.

Lemma ones_range h n : 0 <= h <= n -> 0 <= Z.ones h < 2 ^ n.
Proof.
  intros Hh. rewrite Z.ones_equiv.
  pose proof (Z.pow_pos_nonneg 2 h ltac:(lia) ltac:(lia)).
  pose proof (Z.pow_le_mono_r 2 h n ltac:(lia) ltac:(lia)). lia.
Qed.

(** Adding the bottom bit of a column that holds [h] discs and has room
    ripples up to its first free cell; the disjunction with the old
    occupancy fills it. *)
Lemma play_column k lo h t :
  0 <= k -> 0 <= lo < 2 ^ k -> 0 <= h < H -> 0 <= t ->
  Z.lor (lo + 2 ^ k * (Z.ones h + 2 ^ (H + 1) * t))
        (lo + 2 ^ k * (Z.ones h + 2 ^ (H + 1) * t) + 2 ^ k) =
  lo + 2 ^ k * (Z.ones (h + 1) + 2 ^ (H + 1) * t).
Proof.
  unfold H. intros Hk Hlo Hh Ht.
  replace (lo + 2 ^ k * (Z.ones h + 2 ^ (6 + 1) * t) + 2 ^ k)
    with (lo + 2 ^ k * (2 ^ h + 2 ^ (6 + 1) * t))
    by (rewrite Z.ones_equiv; unfold Z.pred; ring).
  apply Z.bits_inj'; intros i Hi.
  rewrite Z.lor_spec, !(testbit_split k lo) by lia.
  destruct (i <? k); [apply orb_diag|].
  assert (Hp : 0 <= 2 ^ h < 2 ^ (6 + 1))
    by (split; [apply Z.pow_nonneg|apply Z.pow_lt_mono_r]; lia).
  pose proof (Z.ltb_spec (i - k) 0) as Hneg.
  destruct (Z.lt_ge_cases (i - k) 0) as [Hj|Hj].
  - now rewrite !Z.testbit_neg_r.
  - rewrite !(testbit_split (6 + 1)) by (try apply ones_range; lia).
    destruct (i - k <? 6 + 1); [|apply orb_diag].
    rewrite !Z.testbit_ones_nonneg, Z.pow2_bits_eqb by lia.
    destruct (Z.ltb_spec (i - k) h), (Z.eqb_spec h (i - k)), (Z.ltb_spec (i - k) (h + 1));
      trivial; lia.
Qed.

Lemma columns_range hs :
  heights hs -> 0 <= columns hs < 2 ^ ((H + 1) * Z.of_nat (List.length hs)).
Proof.
  unfold heights, H. induction 1 as [|h hs Hh _ IH]; cbn [columns List.length].
  - cbn. lia.
  - pose proof (ones_range h (6 + 1) ltac:(unfold H in Hh; lia)) as Ho.
    replace ((6 + 1) * Z.of_nat (S (List.length hs)))
      with ((6 + 1) + (6 + 1) * Z.of_nat (List.length hs)) by lia.
    unfold H in *.
    rewrite (Z.pow_add_r 2 (6 + 1) ((6 + 1) * Z.of_nat (List.length hs))) by lia.
    assert (Hp : 0 < 2 ^ (6 + 1)) by reflexivity.
    revert Ho IH Hp. generalize (2 ^ (6 + 1)) (Z.ones h) (columns hs)
      (2 ^ ((6 + 1) * Z.of_nat (List.length hs))). intros P o c Q Ho IH Hp. nia.
Qed.

Lemma columns_app pre post :
  columns (pre ++ post) =
  columns pre + 2 ^ ((H + 1) * Z.of_nat (List.length pre)) * columns post.
Proof.
  unfold H. induction pre as [|h pre IH]; cbn [columns List.length app].
  - change (Z.of_nat 0) with 0. rewrite Z.mul_0_r, Z.pow_0_r. lia.
  - rewrite IH.
    replace ((6 + 1) * Z.of_nat (S (List.length pre)))
      with ((6 + 1) + (6 + 1) * Z.of_nat (List.length pre)) by lia.
    rewrite (Z.pow_add_r 2 (6 + 1) ((6 + 1) * Z.of_nat (List.length pre))) by lia.
    unfold H. ring.
Qed.

Lemma discs_app pre post : discs (pre ++ post) = discs pre + discs post.
Proof. induction pre as [|h pre IH]; cbn [discs app]; lia. Qed.

Lemma discs_range hs : heights hs -> 0 <= discs hs <= H * Z.of_nat (List.length hs).
Proof.
  unfold heights, H. induction 1 as [|h hs Hh _ IH]; cbn [discs List.length]; lia.
Qed.

Lemma popcount_columns hs : heights hs -> popcount (columns hs) = discs hs.
Proof.
  induction 1 as [|h hs Hh Hhs IH]; [reflexivity|].
  cbn [columns discs].
  rewrite popcount_split, popcount_ones, IH; try lia.
  - apply ones_range. unfold H in *. lia.
  - apply (columns_range hs Hhs).
Qed.

(** The cell [r] of column [length pre] is occupied when it lies below the
    height of the column. *)
Lemma columns_cell pre h post r :
  heights pre -> 0 <= h <= H -> 0 <= r <= H ->
  Z.testbit (columns (pre ++ h :: post)) (r + Z.of_nat (List.length pre) * (H + 1)) = (r <? h).
Proof.
  intros Hpre Hh Hr. rewrite columns_app. cbn [columns].
  pose proof (columns_range pre Hpre) as Hlo. unfold H in *.
  rewrite testbit_split by lia.
  replace (r + Z.of_nat (List.length pre) * (6 + 1) <? (6 + 1) * Z.of_nat (List.length pre))
    with false by (symmetry; apply Z.ltb_ge; lia).
  replace (r + Z.of_nat (List.length pre) * (6 + 1) - (6 + 1) * Z.of_nat (List.length pre))
    with r by lia.
  rewrite testbit_split by (try apply ones_range; lia).
  replace (r <? 6 + 1) with true by (symmetry; apply Z.ltb_lt; lia).
  apply Z.testbit_ones_nonneg; lia.
Qed.

(** A stacked occupancy stays within the usable cells. *)
Lemma columns_bits hs : heights hs -> forall i, 0 <= i ->
  Z.testbit (columns hs) i = true ->
  i < (H + 1) * Z.of_nat (List.length hs) /\ i mod (H + 1) < H.
Proof.
  unfold heights, H. induction 1 as [|h hs Hh Hhs IH]; intros i Hi Hb; cbn [columns] in Hb.
  - now rewrite Z.bits_0 in Hb.
  - unfold H in Hb. rewrite testbit_split in Hb by (try apply ones_range; lia).
    cbn [List.length]. destruct (Z.ltb_spec i (6 + 1)).
    + rewrite Z.testbit_ones_nonneg in Hb by lia. apply Z.ltb_lt in Hb.
      rewrite Z.mod_small by lia. lia.
    + apply IH in Hb; [|lia]. destruct Hb as [Hb1 Hb2].
      replace i with (i - (6 + 1) + 1 * (6 + 1)) at 2 by lia.
      rewrite Z.mod_add by lia. lia.
Qed.

Lemma columns_subset_board_mask hs :
  heights hs -> Z.of_nat (List.length hs) = W -> subset (columns hs) board_mask.
Proof.
  intros Hhs Hlen. apply subset_bits. intros i Hi Hb.
  apply (columns_bits hs Hhs i Hi) in Hb. destruct Hb as [Hb1 Hb2].
  rewrite testbit_board_mask by trivial. unfold in_board.
  rewrite Hlen, Z.mul_comm in Hb1.
  apply andb_true_iff; split; now apply Z.ltb_lt.
Qed.

Lemma NewPosition_stacked : stacked NewPosition.
Proof.
  exists (repeat 0 7). unfold heights. repeat split.
  apply Forall_forall. intros h Hh. apply repeat_spec in Hh. unfold H. lia.
Qed.

Lemma Play_stacked p col :
  stacked p -> 0 <= col < W -> Z.land (Mask p) (top_mask_col col) = 0 ->
  stacked (Play p col).
Proof.
  intros (hs & Hhs & Hlen & Hmask & Hmoves & Hsub) Hcol Hroom.
  destruct (nth_split hs 0 (n := Z.to_nat col) ltac:(lia)) as (pre & post & Hsplit & Hpre).
  set (h := nth (Z.to_nat col) hs 0) in *. clearbody h.
  subst hs. unfold heights in Hhs.
  apply Forall_app in Hhs. destruct Hhs as [Hhpre Hhs].
  apply Forall_cons_iff in Hhs. destruct Hhs as [Hh Hhpost].
  assert (Hk : Z.of_nat (List.length pre) = col) by lia.
  pose proof (columns_range pre Hhpre) as Hlo.
  pose proof (columns_range post Hhpost) as Ht.
  pose proof (columns_range _ (proj2 (Forall_app _ _ _) (conj Hhpre (Forall_cons _ Hh Hhpost))))
    as Hall.
  rewrite Hlen in Hall. change (2 ^ ((H + 1) * W)) with (2 ^ 49) in Hall.
  (* the column has room: fewer than H discs *)
  assert (Hh' : h < H).
  { rewrite top_mask_col_value, land_pow2 in Hroom by (unfold W, H in *; lia).
    destruct (Z.testbit (Mask p) (H - 1 + col * (H + 1))) eqn:Hb.
    - pose proof (Z.pow_pos_nonneg 2 (H - 1 + col * (H + 1))
        ltac:(lia) ltac:(unfold W, H in *; lia)). lia.
    - rewrite Hmask, <- Hk, columns_cell in Hb by (trivial; unfold H; lia).
      apply Z.ltb_ge in Hb. lia. }
  (* the new occupancy *)
  assert (Hnew : Mask (Play p col) = columns (pre ++ (h + 1) :: post)).
  { cbn [Play Mask]. rewrite bottom_mask_col_value by trivial.
    unfold add64. rewrite wrap64_small.
    - rewrite Hmask, !columns_app, <- Hk. cbn [columns].
      rewrite (Z.mul_comm (Z.of_nat (List.length pre)) (H + 1)).
      apply play_column; unfold H in *; lia.
    - rewrite Hmask. unfold is_u64.
      assert (0 < 2 ^ (col * (H + 1)) <= 2 ^ 42).
      { split; [apply Z.pow_pos_nonneg|apply Z.pow_le_mono_r]; unfold W, H in *; lia. }
      lia. }
  exists (pre ++ (h + 1) :: post). repeat split.
  - apply Forall_app; split; trivial. apply Forall_cons; trivial. lia.
  - rewrite <- Hlen, !length_app. reflexivity.
  - exact Hnew.
  - cbn [Play moves]. rewrite Hmoves, !discs_app. cbn [discs].
    pose proof (discs_range _ (proj2 (Forall_app _ _ _) (conj Hhpre (Forall_cons _ Hh Hhpost)))) as Hs.
    rewrite Hlen, discs_app in Hs. cbn [discs] in Hs. unfold W, H in Hs.
    rewrite int_add_small; lia.
  - cbn [Play Board Mask]. apply subset_bits. intros i Hi.
    rewrite Z.lxor_spec, Z.lor_spec. intros Hb.
    destruct (Z.testbit (Mask p) i) eqn:Hm; [reflexivity|].
    destruct (Z.testbit (Board p) i) eqn:Hbd; [|discriminate].
    now rewrite (subset_testbit _ _ _ Hsub Hbd) in Hm.
Qed.

Lemma reachable_stacked p : reachable p -> stacked p.
Proof.
  induction 1 as [|p col _ IH Hcol Hroom];
    [apply NewPosition_stacked|now apply Play_stacked].
Qed.

Lemma stacked_well_formed p : stacked p -> well_formed p.
Proof.
  intros (hs & Hhs & Hlen & Hmask & Hmoves & Hsub).
  assert (Hbm : subset (Mask p) board_mask)
    by (rewrite Hmask; now apply columns_subset_board_mask).
  unfold well_formed. repeat split; trivial.
  - now rewrite Hmoves, Hmask, popcount_columns.
  - eapply subset_trans; eauto.
Qed.

(** A well-formed position has no sentinel bit. *)
Lemma well_formed_sentinel p col :
  well_formed p -> 0 <= col -> Z.testbit (Mask p) (H + col * (H + 1)) = false.
Proof.
  intros (_ & _ & Hbm & _) Hcol.
  destruct (Z.testbit (Mask p) (H + col * (H + 1))) eqn:Hb; [|reflexivity].
  apply (subset_testbit _ _ _ Hbm) in Hb. now rewrite board_mask_sentinel in Hb.
Qed.

End Playing.

(** * Canonical key *)

Section CanonicalKey.

Lemma get_mirrored_bitmasks_eq self :
  get_mirrored_bitmasks self = (mirror_bits (Board self), mirror_bits (Mask self)).
Proof. reflexivity. Qed.

Lemma column_mask_shift c :
  0 <= c < W -> column_mask c = Z.shiftl (Z.ones H) (c * (H + 1)).
Proof.
  unfold W. intros Hc.
  assert (Hcases : c = 0 \/ c = 1 \/ c = 2 \/ c = 3 \/ c = 4 \/ c = 5 \/ c = 6) by lia.
  repeat (destruct Hcases as [->|Hcases]; [reflexivity|]). subst c. reflexivity.
Qed.

Lemma testbit_column_mask c i :
  0 <= c < W ->
  Z.testbit (column_mask c) i = (c * (H + 1) <=? i) && (i <? c * (H + 1) + H).
Proof.
  intros Hc. rewrite column_mask_shift by trivial. unfold W, H in *.
  destruct (Z.lt_ge_cases i 0) as [Hi|Hi].
  - rewrite Z.testbit_neg_r by trivial. symmetry. apply andb_false_iff. left.
    apply Z.leb_gt. lia.
  - rewrite Z.shiftl_spec by trivial.
    destruct (Z.leb_spec (c * (6 + 1)) i).
    + rewrite Z.testbit_ones_nonneg by lia.
      destruct (Z.ltb_spec (i - c * (6 + 1)) 6), (Z.ltb_spec i (c * (6 + 1) + 6)); trivial; lia.
    + now rewrite Z.testbit_neg_r by lia.
Qed.

Lemma mirror_bits_unfold x :
  mirror_bits x =
  Z.lor (Z.lor (Z.lor (Z.lor 0
    (Z.lor (shl64 (Z.land x (column_mask 0)) 42) (shr64 (Z.land x (column_mask 6)) 42)))
    (Z.lor (shl64 (Z.land x (column_mask 1)) 28) (shr64 (Z.land x (column_mask 5)) 28)))
    (Z.lor (shl64 (Z.land x (column_mask 2)) 14) (shr64 (Z.land x (column_mask 4)) 14)))
    (Z.land x (column_mask 3)).
Proof. reflexivity. Qed.

Ltac decide_comparisons :=
  repeat match goal with
  | |- context [?a <=? ?b] =>
      first [ replace (a <=? b) with true by (symmetry; apply Z.leb_le; lia)
            | replace (a <=? b) with false by (symmetry; apply Z.leb_gt; lia) ]
  | |- context [?a <? ?b] =>
      first [ replace (a <? b) with true by (symmetry; apply Z.ltb_lt; lia)
            | replace (a <? b) with false by (symmetry; apply Z.ltb_ge; lia) ]
  end.


Ltac mirror_bits_bitwise :=
  unfold W, H in *; rewrite mirror_bits_unfold; unfold shl64, shr64;
  rewrite !Z.lor_spec, !Z.land_spec, !testbit_wrap64, !Z.shiftr_spec, !Z.shiftl_spec by lia;
  rewrite !Z.land_spec, !testbit_column_mask by (unfold W; lia);
  rewrite Z.bits_0; unfold W, H in *.

Ltac simplify_bool :=
  cbn [andb orb];
  rewrite ?andb_true_r, ?andb_false_r, ?orb_false_r, ?andb_false_l, ?orb_false_l;
  cbn [andb orb].

Lemma mirror_cell x r c :
  0 <= r < H -> 0 <= c < W ->
  Z.testbit (mirror_bits x) (r + c * (H + 1)) = Z.testbit x (r + (W - 1 - c) * (H + 1)).
Proof.
  intros Hr Hc. mirror_bits_bitwise.
  assert (Hcases : c = 0 \/ c = 1 \/ c = 2 \/ c = 3 \/ c = 4 \/ c = 5 \/ c = 6) by lia.
  destruct Hcases as [->|[->|[->|[->|[->|[->| ->]]]]]]; decide_comparisons; simplify_bool; f_equal; lia.
Qed.

(** Outside the usable cells the mirrored bitmask is empty. *)
Lemma mirror_outside x i :
  0 <= i -> in_board i = false -> Z.testbit (mirror_bits x) i = false.
Proof.
  unfold in_board. intros Hi Hout. mirror_bits_bitwise.
  apply andb_false_iff in Hout. destruct Hout as [Hout|Hout].
  - apply Z.ltb_ge in Hout. decide_comparisons. simplify_bool. reflexivity.
  - apply Z.ltb_ge in Hout.
    assert (Hm : i = 7 * (i / 7) + 6) by (Z.div_mod_to_equations; lia).
    destruct (Z.lt_ge_cases i 49).
    + assert (Hcases : i / 7 = 0 \/ i / 7 = 1 \/ i / 7 = 2 \/ i / 7 = 3 \/ i / 7 = 4
                       \/ i / 7 = 5 \/ i / 7 = 6) by lia.
      destruct Hcases as [Hq|[Hq|[Hq|[Hq|[Hq|[Hq|Hq]]]]]]; rewrite Hq in Hm;
        decide_comparisons; simplify_bool; reflexivity.
    + decide_comparisons. simplify_bool. reflexivity.
Qed.

Lemma mirror_bits_board x : subset (mirror_bits x) board_mask.
Proof.
  apply subset_bits. intros i Hi Hb. rewrite testbit_board_mask by trivial.
  destruct (in_board i) eqn:Hin; [reflexivity|].
  now rewrite mirror_outside in Hb.
Qed.

Lemma mirror_involutive x : subset x board_mask -> mirror_bits (mirror_bits x) = x.
Proof.
  intros Hx. apply Z.bits_inj'; intros i Hi.
  destruct (in_board i) eqn:Hin.
  - unfold in_board in Hin. apply andb_true_iff in Hin. destruct Hin as [Hlt Hrow].
    apply Z.ltb_lt in Hlt, Hrow. unfold W, H in Hlt, Hrow.
    change (6 + 1) with 7 in Hlt, Hrow.
    assert (Hi' : i = i mod 7 + (i / 7) * (H + 1)) by (unfold H; Z.div_mod_to_equations; lia).
    assert (Hr : 0 <= i mod 7 < H) by (unfold H; Z.div_mod_to_equations; lia).
    assert (Hc : 0 <= i / 7 < W) by (unfold W; Z.div_mod_to_equations; lia).
    rewrite Hi' at 1. rewrite mirror_cell by trivial.
    rewrite mirror_cell by (trivial; unfold W in *; lia).
    f_equal. unfold W, H in *. lia.
  - rewrite mirror_outside by trivial.
    destruct (Z.testbit x i) eqn:Hb; [|reflexivity].
    apply (subset_testbit _ _ _ Hx) in Hb.
    rewrite testbit_board_mask in Hb by trivial. congruence.
Qed.

Lemma GetKey_min p :
  GetKey p = Z.min (add64 (Board p) (Mask p))
                   (add64 (Board (mirrored p)) (Mask (mirrored p))).
Proof.
  unfold GetKey, mirrored. rewrite get_mirrored_bitmasks_eq. cbn [Board Mask].
  destruct (Z.ltb_spec (add64 (mirror_bits (Board p)) (mirror_bits (Mask p)))
                       (add64 (Board p) (Mask p))); lia.
Qed.

Lemma GetKey_mirrored p :
  subset (Board p) board_mask -> subset (Mask p) board_mask ->
  GetKey (mirrored p) = GetKey p.
Proof.
  intros Hb Hm. rewrite !GetKey_min. unfold mirrored.
  rewrite !get_mirrored_bitmasks_eq. cbn [Board Mask].
  rewrite !mirror_involutive by trivial. apply Z.min_comm.
Qed.

End CanonicalKey.

(** * Counting bits *)

Section CountOnes.

Lemma popcount_bound n : 0 <= n -> forall m, 0 <= m < 2 ^ n -> popcount m <= n.
Proof.
  intros Hn. pattern n. apply natlike_ind; trivial; clear n Hn.
  - intros m Hm. replace m with 0 by (cbn in Hm; lia). reflexivity.
  - intros n Hn IH m Hm. rewrite Z.pow_succ_r in Hm by trivial.
    pose proof (Z.div_mod m 2 ltac:(lia)) as Hd.
    pose proof (Z.mod_pos_bound m 2 ltac:(lia)) as Hb.
    assert (Hq : 0 <= m / 2 < 2 ^ n) by (split; [apply Z.div_pos|apply Z.div_lt_upper_bound]; lia).
    specialize (IH _ Hq).
    destruct (Z.eq_dec (m mod 2) 0) as [E|E].
    + replace m with (2 * (m / 2)) by lia. rewrite popcount_double; lia.
    + replace m with (2 * (m / 2) + 1) by lia. rewrite popcount_succ_double; lia.
Qed.

Lemma count_ones_loop_popcount fuel : forall mask count,
  is_u64 mask -> popcount mask <= Z.of_nat fuel ->
  0 <= count -> count + popcount mask < 2 ^ 8 ->
  count_ones_loop fuel mask count = count + popcount mask.
Proof.
  induction fuel as [|fuel IH]; intros mask count Hu Hfuel Hc Hsum; cbn [count_ones_loop].
  - pose proof (popcount_nonneg mask). lia.
  - destruct (Z.eqb_spec mask 0) as [->|Hne]; [cbn [popcount]; lia|].
    assert (Hpos : 0 < mask) by (unfold is_u64 in Hu; lia).
    pose proof (popcount_clear_lowest mask Hpos) as Hclear.
    pose proof (popcount_nonneg (Z.land mask (mask - 1))).
    unfold sub64. rewrite wrap64_small by (unfold is_u64 in *; lia).
    rewrite IH; rewrite ?Z.mod_small; try lia.
    now apply land_u64_l.
Qed.

(** The loop of [count_ones] ends within its 64 rounds with the population
    count of a [uint64]. *)
Lemma count_ones_popcount mask : is_u64 mask -> count_ones mask = popcount mask.
Proof.
  intros Hu. pose proof (popcount_bound 64 ltac:(lia) mask Hu).
  unfold count_ones. rewrite count_ones_loop_popcount; trivial; lia.
Qed.

End CountOnes.

(** * The claims of the specification *)

Section Examples.

Lemma full_column_parsed : PositionFromBoardString full_column_board = Ok full_column.
Proof. reflexivity. Qed.

Lemma double_threat_parsed :
  PositionFromBoardString double_threat_board = Ok double_threat.
Proof. reflexivity. Qed.

Lemma single_threat_parsed :
  PositionFromBoardString single_threat_board = Ok single_threat.
Proof. reflexivity. Qed.

Lemma floating_parsed : PositionFromBoardString floating_board = Ok floating.
Proof. reflexivity. Qed.

(** [overfull_reversed] is [overfull] with column [c] and column [W-1-c]
    exchanged, on all seven rows of bits. *)
Lemma overfull_reversed_cells r c :
  0 <= r <= H -> 0 <= c < W ->
  Z.testbit (Board overfull_reversed) (r + c * (H + 1)) =
    Z.testbit (Board overfull) (r + (W - 1 - c) * (H + 1)) /\
  Z.testbit (Mask overfull_reversed) (r + c * (H + 1)) =
    Z.testbit (Mask overfull) (r + (W - 1 - c) * (H + 1)).
Proof.
  unfold W, H. intros Hr Hc.
  assert (Hrs : r = 0 \/ r = 1 \/ r = 2 \/ r = 3 \/ r = 4 \/ r = 5 \/ r = 6) by lia.
  assert (Hcs : c = 0 \/ c = 1 \/ c = 2 \/ c = 3 \/ c = 4 \/ c = 5 \/ c = 6) by lia.
  destruct Hrs as [->|[->|[->|[->|[->|[->| ->]]]]]];
    destruct Hcs as [->|[->|[->|[->|[->|[->| ->]]]]]]; split; reflexivity.
Qed.

End Examples.

Section Claims.

(** C1 (the code departs from the claim).  [IsPlayable] reads the top usable
    bit of the column the wrong way round: it answers true when the bit is
    set.  On the empty position the top bit of column 3 is unset and
    [IsPlayable] answers false; after six discs in that column the bit is
    set and [IsPlayable] answers true. *)
Theorem IsPlayable_inverted :
  Z.testbit (Mask NewPosition) (H - 1 + 3 * (H + 1)) = false /\
  IsPlayable NewPosition 3 = false /\
  Z.testbit (Mask (Nat.iter 6 (fun p => Play p 3) NewPosition)) (H - 1 + 3 * (H + 1)) = true /\
  IsPlayable (Nat.iter 6 (fun p => Play p 3) NewPosition) 3 = true.
Proof. repeat split. Qed.

(** C2 (the code departs from the claim).  Parsing the move sequence 343
    fails on its first character with [InvalidFullColumnMove], column 4,
    index 0: on the empty board [IsPlayable] answers false for column 3. *)
Theorem PositionFromMoves_343 :
  PositionFromMoves (runes_of "343") = Err (InvalidFullColumnMove 4 0).
Proof. reflexivity. Qed.

(** C3 (the code departs from the claim).  [Possible] is the sum of the
    occupancy and the bottom row, not masked by [board_mask]: with column 0
    full the carry of that column stays in the result as its sentinel bit,
    so the result differs from the masked sum and is no subset of
    [board_mask]. *)
Theorem Possible_full_column :
  PositionFromBoardString full_column_board = Ok full_column /\
  Possible full_column = 4432676798656 /\
  Z.land (add64 (Mask full_column) bottom_mask) board_mask = 4432676798592 /\
  Z.testbit (Possible full_column) (H + 0 * (H + 1)) = true /\
  ~ subset (Possible full_column) board_mask.
Proof. repeat split. unfold subset. vm_compute. discriminate. Qed.

(** C4.  Every position reached from the empty one by [Play] in columns
    that have room keeps the current player's mask inside the occupancy
    mask, counts in [moves] the bits of the occupancy mask, and has no
    sentinel bit in the occupancy mask. *)
Theorem Play_keeps_invariants p :
  reachable p ->
  subset (Board p) (Mask p) /\
  moves p = popcount (Mask p) /\
  (forall col, 0 <= col < W -> Z.testbit (Mask p) (H + col * (H + 1)) = false).
Proof.
  intros Hr. apply reachable_stacked, stacked_well_formed in Hr.
  pose proof Hr as (Hsub & Hmoves & _). repeat split; trivial.
  intros col Hcol. apply well_formed_sentinel; [trivial|lia].
Qed.

Lemma Play_keeps_invariants_witness :
  reachable (Play (Play NewPosition 3) 3) /\
  subset (Board (Play (Play NewPosition 3) 3)) (Mask (Play (Play NewPosition 3) 3)) /\
  moves (Play (Play NewPosition 3) 3) = popcount (Mask (Play (Play NewPosition 3) 3)) /\
  (forall col, 0 <= col < W ->
     Z.testbit (Mask (Play (Play NewPosition 3) 3)) (H + col * (H + 1)) = false).
Proof.
  assert (Hr : reachable (Play (Play NewPosition 3) 3)).
  { repeat (apply reachable_play; [|unfold W; lia|reflexivity]). apply reachable_new. }
  exact (conj Hr (Play_keeps_invariants _ Hr)).
Defined.

(** A cell is excluded when the cell above it is set in [opponent_wins]. *)
Lemma excluded_below r opponent_wins :
  Z.land r (shr64 opponent_wins 1) = 0 ->
  forall i, 0 <= i -> Z.testbit opponent_wins (i + 1) = true -> Z.testbit r i = false.
Proof.
  intros Hz i Hi Hw. apply (f_equal (fun z => Z.testbit z i)) in Hz.
  unfold shr64 in Hz. rewrite Z.land_spec, Z.shiftr_spec, Hw, Z.bits_0 in Hz by trivial.
  now rewrite andb_true_r in Hz.
Qed.

(** C5.  With [forced] the opponent's winning cells among the possible
    ones: two or more bits in [forced] give the empty mask; exactly one
    gives that bit, less the excluded cells; and in every case no cell of
    the result lies directly below a winning cell of the opponent. *)
Theorem PossibleNonLosingMoves_forced p :
  let opponent_wins := opponent_winning_position p in
  let forced := Z.land opponent_wins (Possible p) in
  (2 <= popcount forced -> PossibleNonLosingMoves p = 0) /\
  (popcount forced = 1 ->
     PossibleNonLosingMoves p = Z.land forced (not64 (shr64 opponent_wins 1)) /\
     subset (PossibleNonLosingMoves p) forced) /\
  Z.land (PossibleNonLosingMoves p) (shr64 opponent_wins 1) = 0 /\
  (forall i, 0 <= i -> Z.testbit opponent_wins (i + 1) = true ->
     Z.testbit (PossibleNonLosingMoves p) i = false).
Proof.
  intros opponent_wins forced.
  assert (Hf : Z.land (Possible p) opponent_wins = forced) by apply Z.land_comm.
  assert (Hu : is_u64 forced) by (rewrite <- Hf; apply land_u64_l, Possible_u64).
  unfold PossibleNonLosingMoves. fold opponent_wins. rewrite Hf.
  clearbody forced opponent_wins. unfold is_u64 in Hu.
  destruct (Z.ltb_spec 0 forced) as [Hpos|Hzero].
  - unfold sub64. rewrite wrap64_small by (unfold is_u64; lia).
    pose proof (popcount_clear_lowest forced Hpos) as Hclear.
    assert (Hn : 0 <= Z.land forced (forced - 1)) by (apply Z.land_nonneg; left; lia).
    destruct (Z.ltb_spec 0 (Z.land forced (forced - 1))) as [Hmany|Hone].
    + pose proof (popcount_pos _ Hmany).
      split; [reflexivity|]. split; [intros H1; lia|].
      split; [apply Z.land_0_l|]. intros i Hi _. apply Z.bits_0.
    + replace (Z.land forced (forced - 1)) with 0 in Hclear by lia.
      cbn [popcount] in Hclear.
      split; [intros H2; lia|]. split; [|split].
      * intros _. split; [reflexivity|]. unfold subset.
        rewrite <- Z.land_assoc, (Z.land_comm (not64 _) forced), Z.land_assoc.
        now rewrite Z.land_diag.
      * apply masked_below.
      * apply excluded_below, masked_below.
  - replace forced with 0 by lia. cbn [popcount].
    split; [intros H2; lia|]. split; [intros H1; lia|]. split.
    + apply masked_below.
    + apply excluded_below, masked_below.
Qed.

Lemma PossibleNonLosingMoves_forced_witness :
  PossibleNonLosingMoves double_threat = 0 /\
  (PossibleNonLosingMoves single_threat = 2 ^ 28 /\
   subset (PossibleNonLosingMoves single_threat)
          (Z.land (opponent_winning_position single_threat) (Possible single_threat))).
Proof.
  split.
  - apply (proj1 (PossibleNonLosingMoves_forced double_threat)).
    vm_compute. discriminate.
  - destruct (proj1 (proj2 (PossibleNonLosingMoves_forced single_threat)) eq_refl)
      as [Heq Hsub].
    split; [exact Heq|exact Hsub].
Defined.

(** C6, as stated, fails on a position that holds a sentinel bit: mirroring
    drops the bit, and the key of the position is not the key of its
    column-reversed counterpart, whether that is the position
    [get_mirrored_bitmasks] describes or the board with all seven rows of
    bits reversed.  The position is the one [Play] makes in column 0 of
    [full_column], a column for which [IsPlayable] answers true. *)
Lemma GetKey_mirror_counterexample :
  IsPlayable full_column 0 = true /\
  overfull = mkPosition 42 127 7 /\
  GetKey overfull = 169 /\
  GetKey (mirrored overfull) <> GetKey overfull /\
  GetKey overfull_reversed <> GetKey overfull.
Proof. repeat split; vm_compute; discriminate. Qed.

(** C6, amended.  [GetKey] is the smaller of the two sums of the masks, of
    the position as stored and of the position [get_mirrored_bitmasks]
    describes; that position holds in the usable cell of row [r] and column
    [c] what the stored one holds in row [r] and column [W-1-c], and nothing
    outside the usable cells; and when both masks lie within [board_mask],
    the position and its mirror image have the same key. *)
Theorem GetKey_mirror_invariant p :
  GetKey p = Z.min (add64 (Board p) (Mask p))
                   (add64 (Board (mirrored p)) (Mask (mirrored p))) /\
  (forall r c, 0 <= r < H -> 0 <= c < W ->
     Z.testbit (Board (mirrored p)) (r + c * (H + 1)) =
       Z.testbit (Board p) (r + (W - 1 - c) * (H + 1)) /\
     Z.testbit (Mask (mirrored p)) (r + c * (H + 1)) =
       Z.testbit (Mask p) (r + (W - 1 - c) * (H + 1))) /\
  (subset (Board (mirrored p)) board_mask /\ subset (Mask (mirrored p)) board_mask) /\
  (subset (Board p) board_mask -> subset (Mask p) board_mask ->
     GetKey (mirrored p) = GetKey p).
Proof.
  split; [apply GetKey_min|]. split; [|split; [|apply GetKey_mirrored]];
    unfold mirrored; rewrite get_mirrored_bitmasks_eq; cbn [Board Mask].
  - intros r c Hr Hc. split; now apply mirror_cell.
  - split; apply mirror_bits_board.
Qed.

Lemma GetKey_mirror_invariant_witness :
  subset (Board single_threat) board_mask /\
  subset (Mask single_threat) board_mask /\
  Mask (mirrored single_threat) <> Mask single_threat /\
  GetKey (mirrored single_threat) = GetKey single_threat.
Proof.
  split; [reflexivity|]. split; [reflexivity|].
  split; [vm_compute; discriminate|].
  apply (proj2 (proj2 (proj2 (GetKey_mirror_invariant single_threat)))); reflexivity.
Defined.

(** C7, as stated, fails for an occupancy mask that holds a sentinel bit:
    the cell above three stacked discs is reported although it is occupied
    and lies outside [board_mask]. *)
Lemma compute_winning_position_counterexample :
  is_u64 56 /\ is_u64 127 /\
  compute_winning_position 56 127 = 64 /\
  Z.land (compute_winning_position 56 127) 127 <> 0 /\
  ~ subset (compute_winning_position 56 127) board_mask.
Proof. unfold is_u64, subset. repeat split; try lia; vm_compute; discriminate. Qed.

(** C7, amended.  For every player mask and every occupancy mask that lies
    within [board_mask], the result of [compute_winning_position] is
    disjoint from the occupancy mask and lies within [board_mask]. *)
Theorem compute_winning_position_empty_cells position mask :
  subset mask board_mask ->
  Z.land (compute_winning_position position mask) mask = 0 /\
  subset (compute_winning_position position mask) board_mask.
Proof.
  intros Hs. destruct (compute_winning_position_masked position mask) as [r ->].
  now apply masked_empty_cells.
Qed.

Lemma compute_winning_position_empty_cells_witness :
  subset (Mask double_threat) board_mask /\
  compute_winning_position (Z.lxor (Board double_threat) (Mask double_threat))
                           (Mask double_threat) = 2 ^ 7 + 2 ^ 35 /\
  Z.land (compute_winning_position (Z.lxor (Board double_threat) (Mask double_threat))
                                   (Mask double_threat)) (Mask double_threat) = 0 /\
  subset (compute_winning_position (Z.lxor (Board double_threat) (Mask double_threat))
                                   (Mask double_threat)) board_mask.
Proof.
  split; [reflexivity|]. split; [reflexivity|].
  apply (compute_winning_position_empty_cells _ (Mask double_threat)). reflexivity.
Defined.

(** C8, as stated, fails on the digits 7, 8 and 9: none is answered
    [InvalidColumn]. *)
Lemma PositionFromMoves_out_of_range_counterexample :
  PositionFromMoves (runes_of "7") = Err (InvalidFullColumnMove 8 0) /\
  PositionFromMoves (runes_of "8") = Err (InvalidFullColumnMove 9 0) /\
  PositionFromMoves (runes_of "9") = Err (InvalidFullColumnMove 10 0) /\
  ~ (exists column index,
       PositionFromMoves (runes_of "7") = Err (InvalidColumn column index)).
Proof. repeat split. intros (column & index & Heq). vm_compute in Heq. discriminate. Qed.

(** C8, amended.  [PositionFromMoves] returns [InvalidColumn] for the empty
    sequence, with column -1 and index 0, and for no other input: the parser
    checks no digit against the width of the board. *)
Theorem PositionFromMoves_InvalidColumn move_sequence column index :
  PositionFromMoves move_sequence = Err (InvalidColumn column index) <->
  move_sequence = [] /\ column = -1 /\ index = 0.
Proof.
  split.
  - intros Hp. apply moves_loop_InvalidColumn in Hp. tauto.
  - intros (-> & -> & ->). reflexivity.
Qed.

(** C9 (the code departs from the claim).  The round of the parsing loop
    that answers [InvalidWinningMove] leaves the index out: at byte offset
    5, on the digit 0 and a position where that move wins, the error carries
    index 0, and so it does at every offset.  From the empty position the
    loop never gets that far: the sequence 0101010, whose seventh move
    completes a column of four, is answered [InvalidFullColumnMove] at
    index 0, and no sequence is answered [InvalidWinningMove]. *)
Theorem InvalidWinningMove_drops_index :
  PositionFromBoardString floating_board = Ok floating /\
  move_step floating 5 48 = Err (InvalidWinningMove 0 0) /\
  (forall position i c col index,
     move_step position i c = Err (InvalidWinningMove col index) -> index = 0) /\
  PositionFromMoves (runes_of "0101010") = Err (InvalidFullColumnMove 1 0) /\
  (forall move_sequence col index,
     PositionFromMoves move_sequence <> Err (InvalidWinningMove col index)).
Proof.
  split; [reflexivity|]. split; [reflexivity|]. split; [|split; [reflexivity|]].
  - intros position i c col index Hs. apply move_step_error in Hs.
    destruct Hs as [[col' Hs]|[[col' Hs]|Hs]]; [|discriminate..].
    now injection Hs as _ ->.
  - intros [|c rest] col index; [discriminate|].
    rewrite PositionFromMoves_first_round.
    destruct ((48 <=? c) && (c <=? 57)); discriminate.
Qed.

(** C10.  A position [PositionFromBoardString] returns keeps the current
    player's mask inside the occupancy mask, counts in [moves] the bits of
    the occupancy mask, and has no bit of either mask outside [board_mask],
    whatever board the string describes. *)
Theorem PositionFromBoardString_well_formed board_string p :
  PositionFromBoardString board_string = Ok p ->
  subset (Board p) (Mask p) /\
  moves p = popcount (Mask p) /\
  subset (Mask p) board_mask /\
  subset (Board p) board_mask.
Proof.
  intros Hp. pose proof (PositionFromBoardString_length _ _ Hp) as Hlen.
  unfold PositionFromBoardString in Hp. rewrite Hlen, Z.eqb_refl in Hp.
  cbn [negb] in Hp. injection Hp as <-.
  apply board_loop_invariant; try reflexivity; try lia.
  intros j Hj. apply Z.bits_0.
Qed.

Lemma PositionFromBoardString_well_formed_witness :
  PositionFromBoardString floating_board = Ok floating /\
  subset (Board floating) (Mask floating) /\
  moves floating = popcount (Mask floating) /\
  subset (Mask floating) board_mask /\
  subset (Board floating) board_mask.
Proof.
  split; [reflexivity|].
  apply (PositionFromBoardString_well_formed floating_board). reflexivity.
Defined.

End Claims.

(** * Further properties of the code *)

(** Proves that an example position is reached by play. *)
Ltac reach :=
  cbv beta delta [three_each six_in_column fold_left] iota;
  repeat (apply reachable_play; [|unfold W; lia|reflexivity]); apply reachable_new.

(** ** Counting bits *)

Section BitCounts.

(** X1.  [count_ones] returns the number of bits set in a [uint64]: its
    loop ends within 64 rounds and its [uint8] counter does not wrap. *)
Theorem count_ones_counts_bits mask :
  is_u64 mask ->
  count_ones mask = Z.of_nat (List.length (filter (Z.testbit mask) (upto 64))).
Proof.
  intros Hu. rewrite count_ones_popcount by trivial.
  now apply popcount_testbits.
Qed.

Lemma count_ones_counts_bits_witness :
  is_u64 (2 ^ 64 - 1) /\
  count_ones (2 ^ 64 - 1) =
    Z.of_nat (List.length (filter (Z.testbit (2 ^ 64 - 1)) (upto 64))).
Proof.
  assert (Hu : is_u64 (2 ^ 64 - 1)) by (unfold is_u64; lia).
  exact (conj Hu (count_ones_counts_bits _ Hu)).
Defined.

End BitCounts.

(** ** What a board string says *)

Section BoardStringCells.

Lemma to_lower_significant c : significant c = true -> to_lower c = c.
Proof.
  unfold significant, to_lower. intros Hs.
  destruct (Z.leb_spec 65 c), (Z.leb_spec c 90); cbn [andb]; trivial.
  destruct (Z.eqb_spec c 46), (Z.eqb_spec c 111), (Z.eqb_spec c 120); try discriminate; lia.
Qed.

Lemma normalise_idempotent s :
  filter significant (map to_lower (filter significant (map to_lower s))) =
  filter significant (map to_lower s).
Proof.
  induction s as [|c s IH]; [reflexivity|]. cbn [map filter].
  destruct (significant (to_lower c)) eqn:Hs; [|exact IH].
  cbn [map filter]. rewrite (to_lower_significant _ Hs), Hs. now f_equal.
Qed.

(** X5.  [PositionFromBoardString] reads the case of its letters and every
    character other than the three significant ones as if they were not
    there: a string is parsed as the string of its significant characters
    in lower case. *)
Theorem PositionFromBoardString_normalised board_string :
  PositionFromBoardString board_string =
  PositionFromBoardString (filter significant (map to_lower board_string)).
Proof. unfold PositionFromBoardString. now rewrite normalise_idempotent. Qed.

(** X4.  [PositionFromBoardString] fails when, and only when, the number
    of significant characters is not [BoardSize]; the error is
    [InvalidBoardStringLength] with that number and [BoardSize]. *)
Theorem PositionFromBoardString_error board_string e :
  PositionFromBoardString board_string = Err e <->
  Z.of_nat (List.length (filter significant (map to_lower board_string))) <> BoardSize /\
  e = InvalidBoardStringLength
        (Z.of_nat (List.length (filter significant (map to_lower board_string)))) BoardSize.
Proof.
  unfold PositionFromBoardString.
  destruct (Z.eqb_spec
    (Z.of_nat (List.length (filter significant (map to_lower board_string)))) BoardSize)
    as [Heq|Hne]; cbn [negb].
  - split; [discriminate|]. intros [Hne _]. contradiction.
  - split.
    + intros Herr. injection Herr as <-. auto.
    + intros [_ ->]. reflexivity.
Qed.

Lemma testbit_shl64_bit (b : bool) k j :
  0 <= k < 64 -> 0 <= j ->
  Z.testbit (shl64 (if b then 1 else 0) k) j = b && (k =? j).
Proof.
  intros Hk Hj. destruct b; [|now rewrite shl64_0, Z.bits_0].
  rewrite shl64_1_small, Z.pow2_bits_eqb by lia. reflexivity.
Qed.

Lemma cell_index_range i : 0 <= i < BoardSize -> 0 <= cell_index i < 49.
Proof.
  intros Hi. destruct (cell_index_cell i Hi) as (r & c & Hr & Hc & ->).
  unfold W, H in *. lia.
Qed.

Lemma cell_index_eqb i k :
  0 <= i < BoardSize -> 0 <= k < BoardSize -> (cell_index i =? cell_index k) = (i =? k).
Proof.
  intros Hi Hk. destruct (Z.eqb_spec i k) as [->|Hne]; [apply Z.eqb_refl|].
  apply Z.eqb_neq. intros Heq. now apply cell_index_inj in Heq.
Qed.

Lemma nth_shift (c : rune) rest k i :
  i < k -> nth (Z.to_nat (k - i)) (c :: rest) 46 = nth (Z.to_nat (k - (i + 1))) rest 46.
Proof.
  intros Hlt. replace (Z.to_nat (k - i)) with (S (Z.to_nat (k - (i + 1)))) by lia.
  reflexivity.
Qed.

(** The cells the loop has still to read are set as their characters say;
    the others are left as they are. *)
Lemma board_loop_cells chars : forall i board mask mv k,
  0 <= i -> i + Z.of_nat (List.length chars) <= BoardSize -> 0 <= k < BoardSize ->
  Z.testbit (Mask (board_loop chars i board mask mv)) (cell_index k) =
    Z.testbit mask (cell_index k) ||
    ((i <=? k) && (k <? i + Z.of_nat (List.length chars)) && disc_at chars (k - i)) /\
  Z.testbit (Board (board_loop chars i board mask mv)) (cell_index k) =
    Z.testbit board (cell_index k) ||
    ((i <=? k) && (k <? i + Z.of_nat (List.length chars)) && own_disc_at chars (k - i)).
Proof.
  unfold disc_at, own_disc_at.
  induction chars as [|c rest IH]; intros i board mask mv k Hi Hlen Hk; cbn [board_loop].
  - cbn [Board Mask List.length]. change (Z.of_nat 0) with 0.
    replace ((i <=? k) && (k <? i + 0)) with false
      by (destruct (Z.leb_spec i k), (Z.ltb_spec k (i + 0)); trivial; lia).
    cbn [andb]. now rewrite !orb_false_r.
  - cbn [List.length] in Hlen |- *.
    assert (Hi' : 0 <= i < BoardSize) by lia.
    pose proof (cell_index_range i Hi') as Hci.
    pose proof (cell_index_range k Hk) as Hck.
    assert (Hstep : forall f : rune -> bool,
      (i <=? k) && (k <? i + Z.of_nat (S (List.length rest))) &&
        f (nth (Z.to_nat (k - i)) (c :: rest) 46) =
      (i =? k) && f c ||
      (i + 1 <=? k) && (k <? i + 1 + Z.of_nat (List.length rest)) &&
        f (nth (Z.to_nat (k - (i + 1))) rest 46)).
    { intros f. destruct (Z.eqb_spec i k) as [->|Hne].
      - replace (k - k) with 0 by lia. cbn [Z.to_nat nth].
        destruct (Z.leb_spec k k), (Z.ltb_spec k (k + Z.of_nat (S (List.length rest)))),
          (Z.leb_spec (k + 1) k); try lia. cbn [andb orb]. now rewrite orb_false_r.
      - destruct (Z.lt_ge_cases i k) as [Hlt|Hge].
        + rewrite nth_shift by trivial. cbn [andb orb]. f_equal. f_equal.
          * destruct (Z.leb_spec i k), (Z.leb_spec (i + 1) k); trivial; lia.
          * destruct (Z.ltb_spec k (i + Z.of_nat (S (List.length rest)))),
              (Z.ltb_spec k (i + 1 + Z.of_nat (List.length rest))); trivial; lia.
        + destruct (Z.leb_spec i k), (Z.leb_spec (i + 1) k); solve [lia|reflexivity]. }
    pose proof (Hstep (fun x => negb (x =? 46))) as Hs1.
    pose proof (Hstep (fun x => x =? 120)) as Hs2.
    cbv beta in Hs1, Hs2. rewrite Hs1, Hs2. clear Hstep Hs1 Hs2.
    destruct (Z.eqb_spec c 46) as [->|Hc].
    + change (46 =? 120) with false. cbn [negb andb]. rewrite !andb_false_r. cbn [orb].
      apply IH; lia.
    + destruct (IH (i + 1)
        (Z.lor board (shl64 (if c =? 120 then 1 else 0) (cell_index i)))
        (Z.lor mask (shl64 1 (cell_index i))) (int_add mv 1) k
        ltac:(lia) ltac:(lia) Hk) as [IHm IHb].
      fold (cell_index i). rewrite IHm, IHb, !Z.lor_spec.
      rewrite (testbit_shl64_bit true), (testbit_shl64_bit (c =? 120)) by lia.
      rewrite !cell_index_eqb by trivial. cbn [negb andb].
      split; btauto.
Qed.

Lemma cell_index_char_index r c :
  0 <= r < H -> 0 <= c < W ->
  0 <= char_index r c < BoardSize /\ cell_index (char_index r c) = r + c * (H + 1).
Proof.
  unfold char_index, cell_index, BoardSize, W, H. intros Hr Hc.
  split; [lia|]. rewrite Z.quot_div_nonneg, Z.rem_mod_nonneg by lia.
  Z.div_mod_to_equations. lia.
Qed.

(** X6.  In the position [PositionFromBoardString] returns, the cell of
    row [r] and column [c] is occupied when the significant character of
    index [(H-1-r)*W + c] is not a dot, and is the current player's when
    that character is an x: the string is read row by row from the top. *)
Theorem PositionFromBoardString_cells board_string p r c :
  PositionFromBoardString board_string = Ok p -> 0 <= r < H -> 0 <= c < W ->
  Z.testbit (Mask p) (r + c * (H + 1)) =
    disc_at (filter significant (map to_lower board_string)) (char_index r c) /\
  Z.testbit (Board p) (r + c * (H + 1)) =
    own_disc_at (filter significant (map to_lower board_string)) (char_index r c).
Proof.
  intros Hp Hr Hc. pose proof (PositionFromBoardString_length _ _ Hp) as Hlen.
  unfold PositionFromBoardString in Hp. rewrite Hlen, Z.eqb_refl in Hp.
  cbn [negb] in Hp. injection Hp as <-.
  destruct (cell_index_char_index r c Hr Hc) as [Hk Hcell].
  destruct (board_loop_cells (filter significant (map to_lower board_string))
              0 0 0 0 (char_index r c) ltac:(lia) ltac:(lia) Hk) as [Hm Hb].
  rewrite Hcell in Hm, Hb. rewrite Hm, Hb, !Z.bits_0, Hlen.
  replace (char_index r c - 0) with (char_index r c) by lia.
  destruct (Z.leb_spec 0 (char_index r c)), (Z.ltb_spec (char_index r c) (0 + BoardSize));
    try lia. now cbn [andb orb].
Qed.

Lemma PositionFromBoardString_cells_witness :
  Z.testbit (Mask floating) (5 + 0 * (H + 1)) =
    disc_at (filter significant (map to_lower floating_board)) (char_index 5 0) /\
  Z.testbit (Board floating) (5 + 0 * (H + 1)) =
    own_disc_at (filter significant (map to_lower floating_board)) (char_index 5 0).
Proof.
  apply (PositionFromBoardString_cells floating_board floating 5 0);
    [reflexivity|unfold H; lia|unfold W; lia].
Defined.

End BoardStringCells.

(** ** Lines of four *)

Section WonPositions.

Lemma positive_bit x :
  0 <= x -> ((0 <? x) = true <-> exists i, 0 <= i /\ Z.testbit x i = true).
Proof.
  intros Hx. split.
  - intros Hpos%Z.ltb_lt. exists (Z.log2 x). split; [apply Z.log2_nonneg|].
    now apply Z.bit_log2.
  - intros (i & Hi & Hb). apply Z.ltb_lt.
    destruct (Z.eq_dec x 0) as [->|Hne]; [|lia]. now rewrite Z.bits_0 in Hb.
Qed.

(** The folding test of [compute_won_position] for one direction. *)
Lemma fold_aligned x d d2 :
  0 <= x -> 0 <= d -> d2 = 2 * d ->
  (0 <? Z.land (Z.land x (shr64 x d)) (shr64 (Z.land x (shr64 x d)) d2)) = true <->
  aligned x d.
Proof.
  intros Hx Hd ->. unfold shr64.
  rewrite positive_bit by (apply Z.land_nonneg; left; apply Z.land_nonneg; now left).
  unfold aligned. split; intros (i & Hi & Hb); exists i; (split; [exact Hi|]).
  - rewrite !Z.land_spec, !Z.shiftr_spec, !Z.land_spec, !Z.shiftr_spec in Hb by lia.
    replace (i + 2 * d + d) with (i + 3 * d) in Hb by lia.
    apply andb_true_iff in Hb.
    destruct Hb as [[H0 H1]%andb_true_iff [H2 H3]%andb_true_iff]. auto.
  - rewrite !Z.land_spec, !Z.shiftr_spec, !Z.land_spec, !Z.shiftr_spec by lia.
    replace (i + 2 * d + d) with (i + 3 * d) by lia.
    destruct Hb as (-> & -> & -> & ->). reflexivity.
Qed.

Lemma compute_won_position_folds position :
  0 <= position ->
  (compute_won_position position = true <->
   aligned position (H + 1) \/ aligned position H \/
   aligned position (H + 2) \/ aligned position 1).
Proof.
  intros Hp. unfold H.
  pose proof (fold_aligned position (6 + 1) (2 * (6 + 1)) Hp ltac:(lia) eq_refl) as Hh.
  pose proof (fold_aligned position 6 (2 * 6) Hp ltac:(lia) eq_refl) as Hd1.
  pose proof (fold_aligned position (6 + 2) (2 * (6 + 2)) Hp ltac:(lia) eq_refl) as Hd2.
  pose proof (fold_aligned position 1 2 Hp ltac:(lia) eq_refl) as Hv.
  unfold compute_won_position, H.
  destruct (0 <? _); [intuition|].
  destruct (0 <? _); [intuition|].
  destruct (0 <? _); [intuition|].
  destruct (0 <? _); [intuition|].
  intuition discriminate.
Qed.

Lemma in_board_cell i :
  0 <= i -> in_board i = true ->
  0 <= i mod 7 < H /\ 0 <= i / 7 < W /\ i = i mod 7 + i / 7 * (H + 1).
Proof.
  unfold in_board, W, H. intros Hi [Hlt Hrow]%andb_true_iff.
  apply Z.ltb_lt in Hlt, Hrow. change (6 + 1) with 7 in *.
  Z.div_mod_to_equations. lia.
Qed.

Lemma subset_in_board x i :
  subset x board_mask -> 0 <= i -> Z.testbit x i = true -> in_board i = true.
Proof.
  intros Hs Hi Hb. apply (subset_testbit _ _ _ Hs) in Hb.
  now rewrite testbit_board_mask in Hb.
Qed.

(** Within the board, four bits at the distance of a direction lie on a
    line: the empty sentinel row keeps a run from passing from one column
    into the next. *)
Lemma aligned_on_board x dr dc :
  subset x board_mask -> In (dr, dc) directions ->
  aligned x (dr + dc * (H + 1)) ->
  exists r c, forall k, 0 <= k < 4 -> occupied x (r + k * dr) (c + k * dc).
Proof.
  intros Hs Hdir (i & Hi & H0 & H1 & H2 & H3).
  assert (Hsteps : 0 <= dr + dc * (H + 1)).
  { pose proof Hdir as Hdir'. cbn in Hdir'. unfold H.
    destruct Hdir' as [Hd|[Hd|[Hd|[Hd|[]]]]]; injection Hd as <- <-; lia. }
  pose proof (subset_in_board x _ Hs Hi H0) as B0.
  assert (B1 := subset_in_board x (i + (dr + dc * (H + 1))) Hs ltac:(lia) H1).
  assert (B2 := subset_in_board x (i + 2 * (dr + dc * (H + 1))) Hs ltac:(lia) H2).
  assert (B3 := subset_in_board x (i + 3 * (dr + dc * (H + 1))) Hs ltac:(lia) H3).
  apply in_board_cell in B0, B1, B2, B3; try lia.
  exists (i mod 7), (i / 7). intros k Hk. unfold occupied.
  assert (Hks : k = 0 \/ k = 1 \/ k = 2 \/ k = 3) by lia.
  unfold W, H in *. cbn in Hdir.
  destruct Hdir as [Hd|[Hd|[Hd|[Hd|[]]]]]; injection Hd as <- <-;
    destruct Hks as [->|[->|[->| ->]]];
    (split; [|split]);
    try (Z.div_mod_to_equations; lia);
    match goal with
    | |- Z.testbit x ?e = true =>
        first [ replace e with i by (Z.div_mod_to_equations; lia); assumption
              | match type of H1 with Z.testbit x ?e1 = true =>
                  replace e with e1 by (Z.div_mod_to_equations; lia); assumption end
              | match type of H2 with Z.testbit x ?e2 = true =>
                  replace e with e2 by (Z.div_mod_to_equations; lia); assumption end
              | match type of H3 with Z.testbit x ?e3 = true =>
                  replace e with e3 by (Z.div_mod_to_equations; lia); assumption end ]
    end.
Qed.

Lemma line_aligned x r c dr dc :
  In (dr, dc) directions ->
  (forall k, 0 <= k < 4 -> occupied x (r + k * dr) (c + k * dc)) ->
  aligned x (dr + dc * (H + 1)).
Proof.
  intros Hdir Hline.
  destruct (Hline 0 ltac:(lia)) as (Hr0 & Hc0 & H0).
  destruct (Hline 1 ltac:(lia)) as (_ & _ & H1).
  destruct (Hline 2 ltac:(lia)) as (_ & _ & H2).
  destruct (Hline 3 ltac:(lia)) as (_ & _ & H3).
  exists (r + c * (H + 1)). unfold W, H in *.
  split; [lia|].
  repeat split;
    match goal with
    | Hb : Z.testbit x ?e = true |- Z.testbit x ?e' = true =>
        replace e' with e by lia; exact Hb
    end.
Qed.

Lemma aligned_four_in_line x :
  subset x board_mask ->
  (aligned x (H + 1) \/ aligned x H \/ aligned x (H + 2) \/ aligned x 1 <->
   four_in_line x).
Proof.
  intros Hs. unfold four_in_line. split.
  - intros Ha.
    assert (Hex : exists dr dc, In (dr, dc) directions /\ aligned x (dr + dc * (H + 1))).
    { destruct Ha as [Ha|[Ha|[Ha|Ha]]].
      - exists 0, 1. split; [cbn; auto|exact Ha].
      - exists (-1), 1. split; [cbn; auto|exact Ha].
      - exists 1, 1. split; [cbn; auto|exact Ha].
      - exists 1, 0. split; [cbn; auto 6|exact Ha]. }
    destruct Hex as (dr & dc & Hdir & Hal).
    destruct (aligned_on_board x dr dc Hs Hdir Hal) as (r & c & Hline).
    now exists r, c, dr, dc.
  - intros (r & c & dr & dc & Hdir & Hline).
    pose proof (line_aligned x r c dr dc Hdir Hline) as Ha.
    cbn in Hdir. destruct Hdir as [Hd|[Hd|[Hd|[Hd|[]]]]]; injection Hd as <- <-; auto.
Qed.

(** On a mask within the board [compute_won_position] finds the lines of
    four. *)
Lemma compute_won_position_four_in_line position :
  subset position board_mask ->
  (compute_won_position position = true <-> four_in_line position).
Proof.
  intros Hs. rewrite compute_won_position_folds by now apply subset_nonneg.
  now apply aligned_four_in_line.
Qed.

Lemma lxor_subset a b c : subset a c -> subset b c -> subset (Z.lxor a b) c.
Proof.
  intros Ha Hb. apply subset_bits. intros i Hi. rewrite Z.lxor_spec.
  destruct (Z.testbit a i) eqn:Ea; [intros _; now apply (subset_testbit _ _ _ Ha)|].
  destruct (Z.testbit b i) eqn:Eb; [intros _; now apply (subset_testbit _ _ _ Hb)|].
  discriminate.
Qed.

(** X8.  For a position whose masks lie within [board_mask],
    [IsWonPosition] is true when, and only when, the current player's discs
    or the opponent's hold four cells in a line of the board, along a row,
    a column or a diagonal. *)
Theorem IsWonPosition_four_in_line p :
  subset (Board p) board_mask -> subset (Mask p) board_mask ->
  (IsWonPosition p = true <->
   four_in_line (Board p) \/ four_in_line (Z.lxor (Board p) (Mask p))).
Proof.
  intros Hb Hm. unfold IsWonPosition. rewrite orb_true_iff.
  rewrite !compute_won_position_four_in_line; [tauto|now apply lxor_subset|trivial].
Qed.

Lemma IsWonPosition_four_in_line_witness :
  IsWonPosition won_row = true /\
  (four_in_line (Board won_row) \/ four_in_line (Z.lxor (Board won_row) (Mask won_row))).
Proof.
  split; [reflexivity|].
  apply (proj1 (IsWonPosition_four_in_line won_row eq_refl eq_refl)). reflexivity.
Defined.

End WonPositions.

(** ** Winning cells *)

Section WinningCells.

Lemma compute_winning_position_directions position mask :
  compute_winning_position position mask =
  Z.land
    (direction_wins position (H + 2)
       (direction_wins position H
          (direction_wins position (H + 1)
             (Z.land (Z.land (shl64 position 1) (shl64 position 2)) (shl64 position 3)))))
    (Z.lxor board_mask mask).
Proof.
  cbv beta zeta delta [compute_winning_position direction_wins]. reflexivity.
Qed.

Lemma testbit_shl64 a n j :
  0 <= n -> 0 <= j -> Z.testbit (shl64 a n) j = (j <? 64) && Z.testbit a (j - n).
Proof. intros Hn Hj. unfold shl64. now rewrite testbit_wrap64, Z.shiftl_spec. Qed.

Lemma testbit_shr64 a n j :
  0 <= j -> Z.testbit (shr64 a n) j = Z.testbit a (j + n).
Proof. intros Hj. unfold shr64. now rewrite Z.shiftr_spec. Qed.

Lemma subset_high x i : subset x board_mask -> 49 <= i -> Z.testbit x i = false.
Proof.
  intros Hs Hi. destruct (Z.testbit x i) eqn:Hb; [|reflexivity].
  apply (subset_testbit _ _ _ Hs) in Hb. rewrite testbit_board_mask in Hb by lia.
  unfold in_board, W, H in Hb. apply andb_true_iff in Hb. destruct Hb as [Hb _].
  apply Z.ltb_lt in Hb. lia.
Qed.

Lemma testbit_direction_wins position d r i :
  subset position board_mask -> 0 < d <= 8 -> 0 <= i < 49 ->
  Z.testbit (direction_wins position d r) i = Z.testbit r i || window_bits position i d.
Proof.
  intros Hs Hd Hi. unfold direction_wins, window_bits.
  rewrite !Z.lor_spec, !Z.land_spec, !testbit_shr64, !Z.land_spec, !testbit_shl64 by lia.
  replace (i <? 64) with true by (symmetry; apply Z.ltb_lt; lia).
  replace (i + 3 * d - d) with (i + 2 * d) by lia.
  replace (i + 3 * d - 2 * d) with (i + d) by lia.
  cbn [andb]. rewrite <- !orb_assoc. f_equal.
  destruct (Z.ltb_spec (i + 3 * d) 64) as [Hlt|Hge]; cbn [andb]; [reflexivity|].
  rewrite (subset_high position (i + 2 * d)) by (trivial; lia). reflexivity.
Qed.

Lemma window_bits_three_of_four x i d :
  window_bits x i d = true <-> exists k, 0 <= k < 4 /\ three_of_four x i d k.
Proof.
  unfold window_bits, three_of_four. split.
  - rewrite !orb_true_iff, !andb_true_iff.
    intros [[[[[H1 H2] H3]|[[H1 H2] H3]]|[[H1 H2] H3]]|[[H1 H2] H3]];
      [exists 3|exists 2|exists 1|exists 0]; (split; [lia|]); intros j Hj Hne;
      assert (Hjs : j = 0 \/ j = 1 \/ j = 2 \/ j = 3) by lia;
      destruct Hjs as [->|[->|[->| ->]]]; try lia;
      match goal with
      | Hb : Z.testbit x ?e = true |- Z.testbit x ?e' = true =>
          replace e' with e by lia; exact Hb
      end.
  - intros (k & Hk & Hw).
    assert (Hks : k = 0 \/ k = 1 \/ k = 2 \/ k = 3) by lia.
    destruct Hks as [->|[->|[->| ->]]].
    + pose proof (Hw 1 ltac:(lia) ltac:(lia)) as H1.
      pose proof (Hw 2 ltac:(lia) ltac:(lia)) as H2.
      pose proof (Hw 3 ltac:(lia) ltac:(lia)) as H3.
      replace (i + (1 - 0) * d) with (i + d) in H1 by lia.
      replace (i + (2 - 0) * d) with (i + 2 * d) in H2 by lia.
      replace (i + (3 - 0) * d) with (i + 3 * d) in H3 by lia.
      rewrite H1, H2, H3. cbn [andb]. apply orb_true_r.
    + pose proof (Hw 0 ltac:(lia) ltac:(lia)) as H1.
      pose proof (Hw 2 ltac:(lia) ltac:(lia)) as H2.
      pose proof (Hw 3 ltac:(lia) ltac:(lia)) as H3.
      replace (i + (0 - 1) * d) with (i - d) in H1 by lia.
      replace (i + (2 - 1) * d) with (i + d) in H2 by lia.
      replace (i + (3 - 1) * d) with (i + 2 * d) in H3 by lia.
      rewrite H1, H2, H3. cbn [andb]. rewrite !orb_true_r. reflexivity.
    + pose proof (Hw 0 ltac:(lia) ltac:(lia)) as H1.
      pose proof (Hw 1 ltac:(lia) ltac:(lia)) as H2.
      pose proof (Hw 3 ltac:(lia) ltac:(lia)) as H3.
      replace (i + (0 - 2) * d) with (i - 2 * d) in H1 by lia.
      replace (i + (1 - 2) * d) with (i - d) in H2 by lia.
      replace (i + (3 - 2) * d) with (i + d) in H3 by lia.
      rewrite H1, H2, H3. cbn [andb]. rewrite !orb_true_r. reflexivity.
    + pose proof (Hw 0 ltac:(lia) ltac:(lia)) as H1.
      pose proof (Hw 1 ltac:(lia) ltac:(lia)) as H2.
      pose proof (Hw 2 ltac:(lia) ltac:(lia)) as H3.
      replace (i + (0 - 3) * d) with (i - 3 * d) in H1 by lia.
      replace (i + (1 - 3) * d) with (i - 2 * d) in H2 by lia.
      replace (i + (2 - 3) * d) with (i - d) in H3 by lia.
      rewrite H1, H2, H3. reflexivity.
Qed.

Lemma three_below x i :
  (Z.testbit x (i - 1) && Z.testbit x (i - 2) && Z.testbit x (i - 3)) = true <->
  three_of_four x i 1 3.
Proof.
  unfold three_of_four. rewrite !andb_true_iff. split.
  - intros [[H1 H2] H3] j Hj Hne.
    assert (Hjs : j = 0 \/ j = 1 \/ j = 2) by lia.
    destruct Hjs as [->|[->| ->]];
      match goal with
      | Hb : Z.testbit x ?e = true |- Z.testbit x ?e' = true =>
          replace e' with e by lia; exact Hb
      end.
  - intros Hw.
    pose proof (Hw 0 ltac:(lia) ltac:(lia)) as H1.
    pose proof (Hw 1 ltac:(lia) ltac:(lia)) as H2.
    pose proof (Hw 2 ltac:(lia) ltac:(lia)) as H3.
    replace (i + (0 - 3) * 1) with (i - 3) in H1 by lia.
    replace (i + (1 - 3) * 1) with (i - 2) in H2 by lia.
    replace (i + (2 - 3) * 1) with (i - 1) in H3 by lia. auto.
Qed.

(** The cells [compute_winning_position] reports: the empty usable cells
    on which a disc completes four in a line of [position]. *)
Lemma compute_winning_position_cells position mask i :
  subset position board_mask -> subset mask board_mask -> 0 <= i ->
  (Z.testbit (compute_winning_position position mask) i = true <->
   in_board i = true /\ Z.testbit mask i = false /\ completes position i).
Proof.
  intros Hp Hm Hi. rewrite compute_winning_position_directions.
  rewrite Z.land_spec, Z.lxor_spec, testbit_board_mask by trivial.
  destruct (in_board i) eqn:Hin.
  2:{ destruct (Z.testbit mask i) eqn:Hb.
      - apply (subset_testbit _ _ _ Hm) in Hb.
        rewrite testbit_board_mask in Hb by trivial. congruence.
      - rewrite andb_false_r. intuition discriminate. }
  assert (Hlt : 0 <= i < 49).
  { unfold in_board, W, H in Hin. apply andb_true_iff in Hin. destruct Hin as [Hin _].
    apply Z.ltb_lt in Hin. lia. }
  rewrite !testbit_direction_wins by (trivial; unfold H; lia).
  rewrite !Z.land_spec, !testbit_shl64 by lia.
  replace (i <? 64) with true by (symmetry; apply Z.ltb_lt; lia). cbn [andb xorb].
  destruct (Z.testbit mask i); cbn [negb]; [rewrite andb_false_r; intuition discriminate|].
  rewrite andb_true_r, !orb_true_iff, !window_bits_three_of_four, three_below.
  unfold completes. cbn [In]. split.
  - intros [[[Hv|(k & Hk & Hw)]|(k & Hk & Hw)]|(k & Hk & Hw)];
      (split; [reflexivity|split; [reflexivity|]]); [now left|right..];
      [exists (H + 1), k|exists H, k|exists (H + 2), k]; auto.
  - intros (_ & _ & [Hv|(d & k & [<-|[<-|[<-|[]]]] & Hk & Hw)]); eauto 6.
Qed.

(** X9.  For a position whose masks lie within [board_mask], a cell is in
    [winning_positions] when, and only when, it is an empty usable cell on
    which a disc completes four in a line of the current player's discs:
    on top of three in its column, or in a window of four along a row or a
    diagonal; [opponent_winning_position] is the same for the opponent's
    discs. *)
Theorem winning_positions_complete p i :
  subset (Board p) board_mask -> subset (Mask p) board_mask -> 0 <= i ->
  (Z.testbit (winning_positions p) i = true <->
   in_board i = true /\ Z.testbit (Mask p) i = false /\ completes (Board p) i) /\
  (Z.testbit (opponent_winning_position p) i = true <->
   in_board i = true /\ Z.testbit (Mask p) i = false /\
   completes (Z.lxor (Board p) (Mask p)) i).
Proof.
  intros Hb Hm Hi. split; apply compute_winning_position_cells; trivial.
  apply subset_bits. intros j Hj. rewrite Z.lxor_spec.
  destruct (Z.testbit (Board p) j) eqn:Ea; [intros _; now apply (subset_testbit _ _ _ Hb)|].
  destruct (Z.testbit (Mask p) j) eqn:Eb; [intros _; now apply (subset_testbit _ _ _ Hm)|].
  discriminate.
Qed.

Lemma winning_positions_complete_witness :
  (Z.testbit (winning_positions double_threat) 7 = true <->
   in_board 7 = true /\ Z.testbit (Mask double_threat) 7 = false /\
   completes (Board double_threat) 7) /\
  (Z.testbit (opponent_winning_position double_threat) 7 = true <->
   in_board 7 = true /\ Z.testbit (Mask double_threat) 7 = false /\
   completes (Z.lxor (Board double_threat) (Mask double_threat)) 7).
Proof.
  apply (winning_positions_complete double_threat 7); [reflexivity|reflexivity|lia].
Defined.

End WinningCells.

(** ** The lowest free cells *)

Section LowestFreeCells.

Lemma columns_digits hs : columns hs = digits (map Z.ones hs).
Proof. induction hs as [|h hs IH]; cbn [columns digits map]; congruence. Qed.

Lemma digits_range ds :
  small_digits ds -> 0 <= digits ds < 2 ^ ((H + 1) * Z.of_nat (List.length ds)).
Proof.
  unfold small_digits, H. induction 1 as [|d ds Hd _ IH]; cbn [digits List.length].
  - cbn. lia.
  - replace ((6 + 1) * Z.of_nat (S (List.length ds)))
      with ((6 + 1) + (6 + 1) * Z.of_nat (List.length ds)) by lia.
    unfold H in *.
    rewrite (Z.pow_add_r 2 (6 + 1) ((6 + 1) * Z.of_nat (List.length ds))) by lia.
    assert (Hp : 0 < 2 ^ (6 + 1)) by reflexivity.
    revert Hd IH Hp. generalize (2 ^ (6 + 1)) (digits ds)
      (2 ^ ((6 + 1) * Z.of_nat (List.length ds))). intros P c Q Hd IH Hp. nia.
Qed.

Lemma digits_app pre post :
  digits (pre ++ post) =
  digits pre + 2 ^ ((H + 1) * Z.of_nat (List.length pre)) * digits post.
Proof.
  unfold H. induction pre as [|d pre IH]; cbn [digits List.length app].
  - change (Z.of_nat 0) with 0. rewrite Z.mul_0_r, Z.pow_0_r. lia.
  - rewrite IH.
    replace ((6 + 1) * Z.of_nat (S (List.length pre)))
      with ((6 + 1) + (6 + 1) * Z.of_nat (List.length pre)) by lia.
    rewrite (Z.pow_add_r 2 (6 + 1) ((6 + 1) * Z.of_nat (List.length pre))) by lia.
    unfold H. ring.
Qed.

(** Bit [r] of column [length pre] is bit [r] of its digit. *)
Lemma digits_cell pre d post r :
  small_digits pre -> 0 <= d < 2 ^ (H + 1) -> 0 <= r <= H ->
  Z.testbit (digits (pre ++ d :: post)) (r + Z.of_nat (List.length pre) * (H + 1)) =
  Z.testbit d r.
Proof.
  intros Hpre Hd Hr. rewrite digits_app. cbn [digits].
  pose proof (digits_range pre Hpre) as Hlo. unfold H in *.
  rewrite testbit_split by lia.
  replace (r + Z.of_nat (List.length pre) * (6 + 1) <? (6 + 1) * Z.of_nat (List.length pre))
    with false by (symmetry; apply Z.ltb_ge; lia).
  replace (r + Z.of_nat (List.length pre) * (6 + 1) - (6 + 1) * Z.of_nat (List.length pre))
    with r by lia.
  rewrite testbit_split by lia.
  now replace (r <? 6 + 1) with true by (symmetry; apply Z.ltb_lt; lia).
Qed.

Lemma digits_add (f g : Z -> Z) (hs : list Z) :
  digits (map f hs) + digits (map g hs) = digits (map (fun h => f h + g h) hs).
Proof. induction hs as [|h hs IH]; cbn [digits map]; [reflexivity|]. rewrite <- IH. ring. Qed.

Lemma bottom_mask_digits (hs : list Z) :
  Z.of_nat (List.length hs) = W -> bottom_mask = digits (map (fun _ : Z => 1) hs).
Proof.
  intros Hlen. do 8 (destruct hs as [|? hs]; cbn [List.length] in Hlen; try (unfold W in Hlen; lia)).
  reflexivity.
Qed.

(** On a stacked occupancy [Possible] holds, in each column, the bit at the
    height of the column. *)
Lemma Possible_digits p hs :
  heights hs -> Z.of_nat (List.length hs) = W -> Mask p = columns hs ->
  Possible p = digits (map (fun h => 2 ^ h) hs).
Proof.
  intros Hhs Hlen Hmask. rewrite Possible_unmasked, Hmask, columns_digits.
  unfold add64. rewrite (bottom_mask_digits hs Hlen), digits_add.
  rewrite (map_ext (fun h => Z.ones h + 1) (fun h => 2 ^ h))
    by (intros h; rewrite Z.ones_equiv; lia).
  apply wrap64_small.
  assert (Hsmall : small_digits (map (fun h => 2 ^ h) hs)).
  { unfold small_digits. apply Forall_map. eapply Forall_impl; [|exact Hhs].
    cbv beta. unfold H. intros h Hh. split; [apply Z.pow_nonneg; lia|].
    apply Z.pow_lt_mono_r; lia. }
  pose proof (digits_range _ Hsmall) as Hr. rewrite length_map, Hlen in Hr.
  change (2 ^ ((H + 1) * W)) with (2 ^ 49) in Hr. unfold is_u64. lia.
Qed.

Lemma split_column (hs : list Z) col :
  Z.of_nat (List.length hs) = W -> 0 <= col < W ->
  exists pre h post, hs = pre ++ h :: post /\ Z.of_nat (List.length pre) = col.
Proof.
  intros Hlen Hcol.
  destruct (nth_split hs 0 (n := Z.to_nat col) ltac:(lia)) as (pre & post & Hsplit & Hpre).
  exists pre, (nth (Z.to_nat col) hs 0), post. split; [exact Hsplit|lia].
Qed.

Lemma heights_split pre h post :
  heights (pre ++ h :: post) -> heights pre /\ 0 <= h <= H /\ heights post.
Proof.
  unfold heights. intros [Hpre Hrest]%Forall_app.
  apply Forall_cons_iff in Hrest. tauto.
Qed.

Lemma Possible_cells p r col :
  stacked p -> 0 <= r <= H -> 0 <= col < W ->
  Z.testbit (Possible p) (r + col * (H + 1)) =
  ((r =? 0) || Z.testbit (Mask p) (r - 1 + col * (H + 1))) &&
  negb (Z.testbit (Mask p) (r + col * (H + 1))).
Proof.
  intros (hs & Hhs & Hlen & Hmask & _) Hr Hcol.
  rewrite (Possible_digits p hs Hhs Hlen Hmask), Hmask.
  destruct (split_column hs col Hlen Hcol) as (pre & h & post & -> & Hpre).
  destruct (heights_split _ _ _ Hhs) as (Hhpre & Hh & Hhpost).
  rewrite map_app. cbn [map]. rewrite <- Hpre.
  rewrite <- (length_map (fun h => 2 ^ h) pre) at 1.
  rewrite digits_cell.
  - rewrite Z.pow2_bits_eqb by lia. rewrite (columns_cell pre h post r) by trivial.
    destruct (Z.eqb_spec r 0) as [->|Hr0]; cbn [orb].
    + destruct (Z.eqb_spec h 0), (Z.ltb_spec 0 h); trivial; lia.
    + rewrite (columns_cell pre h post (r - 1)) by (trivial; lia).
      destruct (Z.eqb_spec h r), (Z.ltb_spec (r - 1) h), (Z.ltb_spec r h); trivial; lia.
  - unfold small_digits. apply Forall_map. eapply Forall_impl; [|exact Hhpre].
    cbv beta. unfold H. intros x Hx. split; [apply Z.pow_nonneg; lia|].
    apply Z.pow_lt_mono_r; lia.
  - unfold H in *. split; [apply Z.pow_nonneg; lia|apply Z.pow_lt_mono_r; lia].
  - exact Hr.
Qed.

(** X11.  On a position reached by play, [Possible] holds in each column
    exactly the lowest free cell: a bit is set when its cell is free and
    stands on the bottom row or on a disc.  For a full column that is the
    sentinel bit of the column (row [H]). *)
Theorem Possible_lowest_free_cells p r col :
  reachable p -> 0 <= r <= H -> 0 <= col < W ->
  Z.testbit (Possible p) (r + col * (H + 1)) =
  ((r =? 0) || Z.testbit (Mask p) (r - 1 + col * (H + 1))) &&
  negb (Z.testbit (Mask p) (r + col * (H + 1))).
Proof. intros Hp. apply Possible_cells. now apply reachable_stacked. Qed.

Lemma Possible_lowest_free_cells_witness :
  Z.testbit (Possible three_each) (3 + 3 * (H + 1)) =
  ((3 =? 0) || Z.testbit (Mask three_each) (3 - 1 + 3 * (H + 1))) &&
  negb (Z.testbit (Mask three_each) (3 + 3 * (H + 1))).
Proof.
  apply (Possible_lowest_free_cells three_each 3 3);
    [reach|unfold H; lia|unfold W; lia].
Defined.

End LowestFreeCells.

(** ** Dropping a disc *)

Section Discs.

Lemma stacked_u49 hs :
  heights hs -> Z.of_nat (List.length hs) = W -> 0 <= columns hs < 2 ^ 49.
Proof. intros Hhs Hlen. pose proof (columns_range hs Hhs) as Hr. now rewrite Hlen in Hr. Qed.

Lemma add_bottom_small m col :
  0 <= m < 2 ^ 49 -> 0 <= col < W -> add64 m (bottom_mask_col col) = m + 2 ^ (col * (H + 1)).
Proof.
  intros Hm Hcol. rewrite bottom_mask_col_value by trivial. unfold add64.
  apply wrap64_small. unfold is_u64.
  assert (0 < 2 ^ (col * (H + 1)) <= 2 ^ 42).
  { split; [apply Z.pow_pos_nonneg|apply Z.pow_le_mono_r]; unfold W, H in *; lia. }
  lia.
Qed.

(** [Play] in a column of height [h < H] sets the cell at that height. *)
Lemma Play_mask_columns pre h post col :
  heights (pre ++ h :: post) -> Z.of_nat (List.length (pre ++ h :: post)) = W -> h < H ->
  Z.of_nat (List.length pre) = col ->
  Z.lor (columns (pre ++ h :: post))
        (add64 (columns (pre ++ h :: post)) (bottom_mask_col col)) =
    Z.lor (columns (pre ++ h :: post)) (2 ^ (h + col * (H + 1))) /\
  Z.testbit (columns (pre ++ h :: post)) (h + col * (H + 1)) = false.
Proof.
  intros Hhs Hlen Hh Hpre.
  destruct (heights_split _ _ _ Hhs) as (Hhpre & Hh0 & Hhpost).
  assert (Hcol : 0 <= col < W).
  { rewrite length_app in Hlen. cbn [List.length] in Hlen. lia. }
  pose proof (stacked_u49 _ Hhs Hlen) as Hm.
  pose proof (columns_range pre Hhpre) as Hlo.
  pose proof (columns_range post Hhpost) as Ht.
  assert (Hfree : Z.testbit (columns (pre ++ h :: post)) (h + col * (H + 1)) = false).
  { rewrite <- Hpre, columns_cell by (trivial; lia). apply Z.ltb_irrefl. }
  split; [|exact Hfree].
  rewrite add_bottom_small by trivial.
  transitivity (columns (pre ++ (h + 1) :: post)).
  - rewrite !columns_app. cbn [columns]. rewrite Hpre in *.
    rewrite (Z.mul_comm col (H + 1)).
    apply play_column; unfold W, H in *; lia.
  - rewrite Z.or_to_plus.
    + rewrite !columns_app. cbn [columns]. rewrite Hpre.
      replace (2 ^ (h + col * (H + 1))) with (2 ^ h * 2 ^ ((H + 1) * col))
        by (rewrite <- Z.pow_add_r by (unfold W, H in *; lia); f_equal; lia).
      replace (Z.ones (h + 1)) with (Z.ones h + 2 ^ h)
        by (rewrite !Z.ones_equiv, Z.pow_add_r by lia; lia).
      ring.
    + rewrite land_pow2 by (unfold W, H in *; lia). now rewrite Hfree.
Qed.

Lemma Play_drops stacked_p col :
  stacked stacked_p -> 0 <= col < W -> Z.land (Mask stacked_p) (top_mask_col col) = 0 ->
  exists h, 0 <= h < H /\
    (forall r, 0 <= r < H -> Z.testbit (Mask stacked_p) (r + col * (H + 1)) = (r <? h)) /\
    Mask (Play stacked_p col) = Z.lor (Mask stacked_p) (2 ^ (h + col * (H + 1))) /\
    Z.lxor (Board (Play stacked_p col)) (Mask (Play stacked_p col)) =
      Z.lor (Board stacked_p) (2 ^ (h + col * (H + 1))) /\
    Board (Play stacked_p col) = Z.lxor (Board stacked_p) (Mask stacked_p) /\
    moves (Play stacked_p col) = moves stacked_p + 1.
Proof.
  intros (hs & Hhs & Hlen & Hmask & Hmoves & Hsub) Hcol Hroom.
  destruct (split_column hs col Hlen Hcol) as (pre & h & post & -> & Hpre).
  destruct (heights_split _ _ _ Hhs) as (Hhpre & Hh & Hhpost).
  assert (Hh' : h < H).
  { rewrite top_mask_col_value, land_pow2 in Hroom by (unfold W, H in *; lia).
    destruct (Z.testbit (Mask stacked_p) (H - 1 + col * (H + 1))) eqn:Hb.
    - pose proof (Z.pow_pos_nonneg 2 (H - 1 + col * (H + 1))
        ltac:(lia) ltac:(unfold W, H in *; lia)). lia.
    - rewrite Hmask, <- Hpre, columns_cell in Hb by (trivial; unfold H; lia).
      apply Z.ltb_ge in Hb. lia. }
  destruct (Play_mask_columns pre h post col Hhs Hlen Hh' Hpre) as [Hnew Hfree].
  rewrite <- Hmask in Hnew, Hfree.
  assert (Hcount : moves (Play stacked_p col) = moves stacked_p + 1).
  { cbn [Play moves]. pose proof (discs_range _ Hhs) as Hd.
    rewrite Hlen in Hd. unfold W, H in Hd. rewrite int_add_small; lia. }
  exists h. split; [lia|].
  split; [|split; [exact Hnew|split; [|split; [reflexivity|exact Hcount]]]].
  - intros r Hr. rewrite Hmask, <- Hpre. apply columns_cell; trivial; lia.
  - cbn [Play Board]. change (Mask (Play stacked_p col))
      with (Z.lor (Mask stacked_p) (add64 (Mask stacked_p) (bottom_mask_col col))).
    rewrite Hnew. apply Z.bits_inj'; intros i Hi.
    rewrite !Z.lxor_spec, !Z.lor_spec.
    assert (Hk : 0 <= h + col * (H + 1)) by (unfold W, H in *; lia).
    rewrite Z.pow2_bits_eqb by trivial.
    destruct (Z.eqb_spec (h + col * (H + 1)) i) as [<-|Hne].
    + rewrite Hfree. destruct (Z.testbit (Board stacked_p) _) eqn:Hb; [|reflexivity].
      apply (subset_testbit _ _ _ Hsub) in Hb. congruence.
    + destruct (Z.testbit (Board stacked_p) i) eqn:Hb.
      * now rewrite (subset_testbit _ _ _ Hsub Hb).
      * now destruct (Z.testbit (Mask stacked_p) i).
Qed.

(** X12.  On a position reached by play, [Play] in a column that has room
    puts one disc on the lowest free cell of the column: the occupancy
    gains that cell, the discs of the player who moved (the opponent of the
    new position) are the old current player's discs and that cell, the
    current player's discs are the old opponent's, and the move counter
    grows by one. *)
Theorem Play_drops_disc p col :
  reachable p -> 0 <= col < W -> Z.land (Mask p) (top_mask_col col) = 0 ->
  exists h, 0 <= h < H /\
    (forall r, 0 <= r < H -> Z.testbit (Mask p) (r + col * (H + 1)) = (r <? h)) /\
    Mask (Play p col) = Z.lor (Mask p) (2 ^ (h + col * (H + 1))) /\
    Z.lxor (Board (Play p col)) (Mask (Play p col)) =
      Z.lor (Board p) (2 ^ (h + col * (H + 1))) /\
    Board (Play p col) = Z.lxor (Board p) (Mask p) /\
    moves (Play p col) = moves p + 1.
Proof. intros Hp. apply Play_drops. now apply reachable_stacked. Qed.

Lemma Play_drops_disc_witness :
  exists h, 0 <= h < H /\
    (forall r, 0 <= r < H -> Z.testbit (Mask three_each) (r + 3 * (H + 1)) = (r <? h)) /\
    Mask (Play three_each 3) = Z.lor (Mask three_each) (2 ^ (h + 3 * (H + 1))) /\
    Z.lxor (Board (Play three_each 3)) (Mask (Play three_each 3)) =
      Z.lor (Board three_each) (2 ^ (h + 3 * (H + 1))) /\
    Board (Play three_each 3) = Z.lxor (Board three_each) (Mask three_each) /\
    moves (Play three_each 3) = moves three_each + 1.
Proof.
  apply (Play_drops_disc three_each 3); [reach|unfold W; lia|reflexivity].
Defined.

(** In a full column the added bottom bit ripples into the sentinel bit. *)
Lemma play_full_column k lo t :
  0 <= k -> 0 <= lo < 2 ^ k -> 0 <= t ->
  Z.testbit (lo + 2 ^ k * (Z.ones H + 2 ^ (H + 1) * t) + 2 ^ k) (H + k) = true.
Proof.
  unfold H. intros Hk Hlo Ht.
  replace (lo + 2 ^ k * (Z.ones 6 + 2 ^ (6 + 1) * t) + 2 ^ k)
    with (lo + 2 ^ k * (2 ^ 6 + 2 ^ (6 + 1) * t))
    by (rewrite Z.ones_equiv; unfold Z.pred; ring).
  rewrite (testbit_split k lo) by lia.
  replace (6 + k <? k) with false by (symmetry; apply Z.ltb_ge; lia).
  replace (6 + k - k) with 6 by lia.
  rewrite (testbit_split (6 + 1)) by lia. reflexivity.
Qed.

(** X13.  On a position reached by play, a column for which [IsPlayable]
    answers true is full, its [H] usable cells all occupied, and [Play] in
    it sets the sentinel bit of the column: the position it leaves breaks
    the representation invariants. *)
Theorem Play_full_column_overflows p col :
  reachable p -> 0 <= col < W -> IsPlayable p col = true ->
  (forall r, 0 <= r < H -> Z.testbit (Mask p) (r + col * (H + 1)) = true) /\
  Z.testbit (Mask (Play p col)) (H + col * (H + 1)) = true /\
  ~ well_formed (Play p col).
Proof.
  intros Hp Hcol Hplay.
  assert (Hbits : (forall r, 0 <= r < H ->
                     Z.testbit (Mask p) (r + col * (H + 1)) = true) /\
                  Z.testbit (Mask (Play p col)) (H + col * (H + 1)) = true).
  { rewrite IsPlayable_top_bit in Hplay by trivial.
    destruct (reachable_stacked p Hp) as (hs & Hhs & Hlen & Hmask & _).
    destruct (split_column hs col Hlen Hcol) as (pre & h & post & -> & Hpre).
    destruct (heights_split _ _ _ Hhs) as (Hhpre & Hh & Hhpost).
    rewrite Hmask, <- Hpre, columns_cell in Hplay by (trivial; unfold H; lia).
    apply Z.ltb_lt in Hplay. assert (h = H) by lia. subst h.
    split.
    - intros r Hr. rewrite Hmask, <- Hpre, (columns_cell pre H post r) by (trivial; lia).
      apply Z.ltb_lt. lia.
    - pose proof (stacked_u49 _ Hhs Hlen) as Hm.
      pose proof (columns_range pre Hhpre) as Hlo.
      pose proof (columns_range post Hhpost) as Ht.
      cbn [Play Mask]. rewrite Z.lor_spec. apply orb_true_iff. right.
      rewrite Hmask, add_bottom_small by trivial.
      rewrite columns_app. cbn [columns]. rewrite <- Hpre.
      rewrite (Z.mul_comm (Z.of_nat (List.length pre)) (H + 1)).
      apply play_full_column; lia. }
  destruct Hbits as [Hfull Hbit].
  split; [exact Hfull|]. split; [exact Hbit|]. intros Hwf.
  rewrite (well_formed_sentinel _ col Hwf) in Hbit by lia. discriminate.
Qed.

Lemma Play_full_column_overflows_witness :
  IsPlayable six_in_column 3 = true /\
  (forall r, 0 <= r < H -> Z.testbit (Mask six_in_column) (r + 3 * (H + 1)) = true) /\
  Z.testbit (Mask (Play six_in_column 3)) (H + 3 * (H + 1)) = true /\
  ~ well_formed (Play six_in_column 3).
Proof.
  split; [reflexivity|].
  apply (Play_full_column_overflows six_in_column 3);
    [reach|unfold W; lia|reflexivity].
Defined.

Lemma winning_positions_board p :
  subset (Mask p) board_mask -> subset (winning_positions p) board_mask.
Proof.
  intros Hm. unfold winning_positions.
  destruct (compute_winning_position_masked (Board p) (Mask p)) as [r ->].
  now apply masked_empty_cells.
Qed.

Lemma land_nonneg_r a b : 0 <= b -> 0 <= Z.land a b.
Proof. intros Hb. apply Z.land_nonneg. now right. Qed.

Lemma Possible_nonneg p : 0 <= Possible p.
Proof. apply (Possible_u64 p). Qed.

Lemma IsWinningMove_bit p col :
  0 <= col < W ->
  (IsWinningMove p col = true <->
   exists r, 0 <= r < H /\
     Z.testbit (winning_positions p) (r + col * (H + 1)) = true /\
     Z.testbit (Possible p) (r + col * (H + 1)) = true).
Proof.
  intros Hcol. unfold IsWinningMove.
  rewrite positive_bit
    by (apply Z.land_nonneg; left; apply land_nonneg_r, Possible_nonneg).
  split.
  - intros (i & Hi & Hb).
    rewrite !Z.land_spec, testbit_column_mask in Hb by trivial.
    apply andb_true_iff in Hb. destruct Hb as [[Hw Hp]%andb_true_iff [Hlo Hhi]%andb_true_iff].
    apply Z.leb_le in Hlo. apply Z.ltb_lt in Hhi.
    exists (i - col * (H + 1)). replace (i - col * (H + 1) + col * (H + 1)) with i by lia.
    repeat split; trivial; lia.
  - intros (r & Hr & Hw & Hp). exists (r + col * (H + 1)).
    split; [unfold W, H in *; lia|].
    rewrite !Z.land_spec, testbit_column_mask, Hw, Hp by trivial. cbn [andb].
    apply andb_true_iff; split; [apply Z.leb_le|apply Z.ltb_lt]; lia.
Qed.

(** X10.  For a position whose occupancy lies within [board_mask],
    [CanWinNext] is true when, and only when, [IsWinningMove] is true for
    one of the columns of the board. *)
Theorem CanWinNext_some_column p :
  subset (Mask p) board_mask ->
  (CanWinNext p = true <-> exists col, 0 <= col < W /\ IsWinningMove p col = true).
Proof.
  intros Hm. unfold CanWinNext.
  rewrite positive_bit by apply land_nonneg_r, Possible_nonneg. split.
  - intros (i & Hi & Hb). rewrite Z.land_spec in Hb.
    apply andb_true_iff in Hb. destruct Hb as [Hw Hp].
    pose proof (subset_in_board _ i (winning_positions_board p Hm) Hi Hw) as Hin.
    destruct (in_board_cell i Hi Hin) as (Hr & Hc & Hcell).
    exists (i / 7). split; [exact Hc|]. apply IsWinningMove_bit; [exact Hc|].
    exists (i mod 7). rewrite <- Hcell. auto.
  - intros (col & Hcol & Hwin). apply IsWinningMove_bit in Hwin; [|exact Hcol].
    destruct Hwin as (r & Hr & Hw & Hp). exists (r + col * (H + 1)).
    split; [unfold W, H in *; lia|]. now rewrite Z.land_spec, Hw, Hp.
Qed.

Lemma CanWinNext_some_column_witness :
  CanWinNext floating = true /\
  exists col, 0 <= col < W /\ IsWinningMove floating col = true.
Proof.
  split; [reflexivity|].
  apply (proj1 (CanWinNext_some_column floating eq_refl)). reflexivity.
Defined.

End Discs.

(** ** The key of a position *)

Section Keys.

Lemma split_height (hs : list Z) c :
  Z.of_nat (List.length hs) = W -> 0 <= c < W ->
  exists pre post, hs = pre ++ height hs c :: post /\ Z.of_nat (List.length pre) = c.
Proof.
  intros Hlen Hc. unfold height.
  destruct (nth_split hs 0 (n := Z.to_nat c) ltac:(lia)) as (pre & post & Hsplit & Hpre).
  exists pre, post. split; [exact Hsplit|lia].
Qed.

Lemma height_range hs c :
  heights hs -> Z.of_nat (List.length hs) = W -> 0 <= c < W -> 0 <= height hs c <= H.
Proof.
  intros Hhs Hlen Hc. destruct (split_height hs c Hlen Hc) as (pre & post & Hsplit & _).
  rewrite Hsplit in Hhs. now apply heights_split in Hhs.
Qed.

Lemma columns_height hs r c :
  heights hs -> Z.of_nat (List.length hs) = W -> 0 <= r <= H -> 0 <= c < W ->
  Z.testbit (columns hs) (r + c * (H + 1)) = (r <? height hs c).
Proof.
  intros Hhs Hlen Hr Hc.
  destruct (split_height hs c Hlen Hc) as (pre & post & Hsplit & Hpre).
  set (h := height hs c) in *. clearbody h. subst hs c.
  destruct (heights_split _ _ _ Hhs) as (Hhpre & Hh & _).
  now apply columns_cell.
Qed.

Lemma tops_height hs r c :
  heights hs -> Z.of_nat (List.length hs) = W -> 0 <= r <= H -> 0 <= c < W ->
  Z.testbit (digits (map (fun h => 2 ^ h) hs)) (r + c * (H + 1)) = (height hs c =? r).
Proof.
  intros Hhs Hlen Hr Hc.
  destruct (split_height hs c Hlen Hc) as (pre & post & Hsplit & Hpre).
  pose proof (height_range hs c Hhs Hlen Hc) as Hh.
  set (h := height hs c) in *. clearbody h. subst hs c.
  destruct (heights_split _ _ _ Hhs) as (Hhpre & _ & _).
  rewrite map_app. cbn [map].
  rewrite <- (length_map (fun h => 2 ^ h) pre).
  rewrite digits_cell.
  - apply Z.pow2_bits_eqb. lia.
  - unfold small_digits. apply Forall_map. eapply Forall_impl; [|exact Hhpre].
    cbv beta. unfold H. intros x Hx. split; [apply Z.pow_nonneg; lia|].
    apply Z.pow_lt_mono_r; lia.
  - unfold H in *. split; [apply Z.pow_nonneg; lia|apply Z.pow_lt_mono_r; lia].
  - exact Hr.
Qed.

Lemma tops_board_or_sentinel hs :
  heights hs -> Z.of_nat (List.length hs) = W ->
  0 <= digits (map (fun h => 2 ^ h) hs) < 2 ^ 49.
Proof.
  intros Hhs Hlen.
  assert (Hsmall : small_digits (map (fun h => 2 ^ h) hs)).
  { unfold small_digits. apply Forall_map. eapply Forall_impl; [|exact Hhs].
    cbv beta. unfold H. intros h Hh. split; [apply Z.pow_nonneg; lia|].
    apply Z.pow_lt_mono_r; lia. }
  pose proof (digits_range _ Hsmall) as Hr. now rewrite length_map, Hlen in Hr.
Qed.

(** The sum of the two masks and the bottom row shows, in each column, the
    current player's discs below a bit at the height of the column. *)
Lemma key_cells board mask hs r c :
  piled board mask hs -> 0 <= r <= H -> 0 <= c < W ->
  Z.testbit (board + mask + bottom_mask) (r + c * (H + 1)) =
  (height hs c =? r) || Z.testbit board (r + c * (H + 1)).
Proof.
  intros (Hhs & Hlen & -> & Hsub) Hr Hc.
  replace (board + columns hs + bottom_mask)
    with (Z.lor (digits (map (fun h => 2 ^ h) hs)) board).
  - now rewrite Z.lor_spec, tops_height.
  - rewrite Z.or_to_plus.
    + rewrite columns_digits, (bottom_mask_digits hs Hlen).
      rewrite <- Z.add_assoc, digits_add.
      rewrite (map_ext (fun h => Z.ones h + 1) (fun h => 2 ^ h))
        by (intros h; rewrite Z.ones_equiv; lia).
      ring.
    + apply Z.bits_inj'; intros i Hi. rewrite Z.land_spec, Z.bits_0.
      destruct (Z.testbit board i) eqn:Hb; [|apply andb_false_r].
      rewrite andb_true_r.
      pose proof (subset_testbit _ _ _ Hsub Hb) as Hm.
      pose proof (subset_in_board _ i (columns_subset_board_mask hs Hhs Hlen) Hi Hm) as Hin.
      destruct (in_board_cell i Hi Hin) as (Hr' & Hc' & Hcell).
      rewrite Hcell in Hm |- *.
      rewrite columns_height in Hm by (trivial; lia).
      rewrite tops_height by (trivial; lia).
      apply Z.ltb_lt in Hm. apply Z.eqb_neq. lia.
Qed.

Lemma piled_range board mask hs :
  piled board mask hs -> 0 <= board < 2 ^ 49 /\ 0 <= mask < 2 ^ 49.
Proof.
  intros (Hhs & Hlen & -> & Hsub).
  pose proof (columns_subset_board_mask hs Hhs Hlen) as Hm.
  split; apply subset_board_mask_range; trivial.
  - apply subset_nonneg. eapply subset_trans; eauto.
  - eapply subset_trans; eauto.
  - now apply subset_nonneg.
Qed.

Lemma bits_on_board a b :
  subset a board_mask -> subset b board_mask ->
  (forall r c, 0 <= r < H -> 0 <= c < W ->
     Z.testbit a (r + c * (H + 1)) = Z.testbit b (r + c * (H + 1))) ->
  a = b.
Proof.
  intros Ha Hb Hcells. apply Z.bits_inj'; intros i Hi.
  destruct (in_board i) eqn:Hin.
  - destruct (in_board_cell i Hi Hin) as (Hr & Hc & Hcell). rewrite Hcell. now apply Hcells.
  - destruct (Z.testbit a i) eqn:Ea.
    + apply (subset_in_board _ _ Ha Hi) in Ea. congruence.
    + destruct (Z.testbit b i) eqn:Eb; [|reflexivity].
      apply (subset_in_board _ _ Hb Hi) in Eb. congruence.
Qed.

(** The sum of the two masks tells the position. *)
Lemma key_injective board mask hs board' mask' hs' :
  piled board mask hs -> piled board' mask' hs' ->
  board + mask = board' + mask' -> board = board' /\ mask = mask'.
Proof.
  intros Hp Hq Hkey.
  assert (Hcells : forall r c, 0 <= r <= H -> 0 <= c < W ->
    (height hs c =? r) || Z.testbit board (r + c * (H + 1)) =
    (height hs' c =? r) || Z.testbit board' (r + c * (H + 1))).
  { intros r c Hr Hc.
    rewrite <- (key_cells board mask hs), <- (key_cells board' mask' hs') by trivial.
    now rewrite Hkey. }
  destruct Hp as (Hhs & Hlen & -> & Hsub). destruct Hq as (Hhs' & Hlen' & -> & Hsub').
  assert (Hbelow : forall b hs0 r c, heights hs0 -> Z.of_nat (List.length hs0) = W ->
    subset b (columns hs0) -> 0 <= r <= H -> 0 <= c < W ->
    Z.testbit b (r + c * (H + 1)) = true -> r < height hs0 c).
  { intros b hs0 r c Hh0 Hl0 Hs0 Hr Hc Hb. apply (subset_testbit _ _ _ Hs0) in Hb.
    rewrite columns_height in Hb by trivial. now apply Z.ltb_lt in Hb. }
  assert (Hheight : forall c, 0 <= c < W -> height hs c = height hs' c).
  { intros c Hc.
    pose proof (height_range hs c Hhs Hlen Hc) as Hh.
    pose proof (height_range hs' c Hhs' Hlen' Hc) as Hh'.
    pose proof (Hcells (height hs c) c Hh Hc) as H1.
    pose proof (Hcells (height hs' c) c Hh' Hc) as H2.
    rewrite Z.eqb_refl in H1, H2. cbn [orb] in H1, H2.
    symmetry in H1. apply orb_true_iff in H1, H2.
    assert (height hs c <= height hs' c).
    { destruct H1 as [H1%Z.eqb_eq|H1]; [lia|].
      apply (Hbelow _ hs') in H1; trivial; lia. }
    assert (height hs' c <= height hs c).
    { destruct H2 as [H2%Z.eqb_eq|H2]; [lia|].
      apply (Hbelow _ hs) in H2; trivial; lia. }
    lia. }
  assert (Hbm : subset (columns hs) board_mask) by now apply columns_subset_board_mask.
  assert (Hbm' : subset (columns hs') board_mask) by now apply columns_subset_board_mask.
  split.
  - apply bits_on_board; [eapply subset_trans; eauto..|].
    intros r c Hr Hc. pose proof (Hcells r c ltac:(lia) Hc) as Hrc.
    rewrite <- (Hheight c Hc) in Hrc.
    destruct (Z.eqb_spec (height hs c) r) as [Heq|Hne]; [|exact Hrc].
    destruct (Z.testbit board (r + c * (H + 1))) eqn:Eb.
    { apply (Hbelow _ hs) in Eb; trivial; lia. }
    destruct (Z.testbit board' (r + c * (H + 1))) eqn:Eb'; [|reflexivity].
    apply (Hbelow _ hs') in Eb'; trivial; try lia. rewrite <- (Hheight c Hc) in Eb'. lia.
  - apply bits_on_board; trivial.
    intros r c Hr Hc. rewrite !columns_height by (trivial; lia). now rewrite Hheight.
Qed.

Lemma height_rev hs c :
  Z.of_nat (List.length hs) = W -> 0 <= c < W ->
  height (rev hs) c = height hs (W - 1 - c).
Proof.
  intros Hlen Hc. unfold height. rewrite rev_nth by lia. f_equal. lia.
Qed.

Lemma heights_rev hs : heights hs -> heights (rev hs).
Proof. apply Forall_rev. Qed.

(** Mirroring a stacked occupancy reverses the order of its columns. *)
Lemma mirror_columns hs :
  heights hs -> Z.of_nat (List.length hs) = W ->
  mirror_bits (columns hs) = columns (rev hs).
Proof.
  intros Hhs Hlen.
  assert (Hlen' : Z.of_nat (List.length (rev hs)) = W) by now rewrite length_rev.
  apply bits_on_board.
  - apply mirror_bits_board.
  - apply columns_subset_board_mask; [now apply heights_rev|exact Hlen'].
  - intros r c Hr Hc. rewrite mirror_cell by trivial.
    rewrite !columns_height by (trivial; try apply heights_rev; trivial; lia).
    now rewrite height_rev.
Qed.

Lemma mirror_subset a b : subset a b -> subset (mirror_bits a) (mirror_bits b).
Proof.
  intros Hab. apply subset_bits. intros i Hi Hb.
  destruct (in_board i) eqn:Hin; [|now rewrite mirror_outside in Hb].
  destruct (in_board_cell i Hi Hin) as (Hr & Hc & Hcell).
  rewrite Hcell in Hb |- *. rewrite mirror_cell in Hb |- * by trivial.
  now apply (subset_testbit _ _ _ Hab).
Qed.

Lemma piled_mirror board mask hs :
  piled board mask hs -> piled (mirror_bits board) (mirror_bits mask) (rev hs).
Proof.
  intros (Hhs & Hlen & -> & Hsub). repeat split.
  - now apply heights_rev.
  - now rewrite length_rev.
  - now apply mirror_columns.
  - now apply mirror_subset.
Qed.

Lemma piled_key board mask hs :
  piled board mask hs -> add64 board mask = board + mask.
Proof.
  intros Hp. destruct (piled_range _ _ _ Hp) as [Hb Hm].
  apply wrap64_small. unfold is_u64. lia.
Qed.

Lemma piled_board board mask hs :
  piled board mask hs -> subset board board_mask /\ subset mask board_mask.
Proof.
  intros (Hhs & Hlen & -> & Hsub).
  pose proof (columns_subset_board_mask hs Hhs Hlen) as Hm.
  split; [eapply subset_trans; eauto|exact Hm].
Qed.

Lemma stacked_piled p : stacked p -> exists hs, piled (Board p) (Mask p) hs.
Proof. intros (hs & Hhs & Hlen & Hmask & _ & Hsub). exists hs. now repeat split. Qed.

(** X15.  For two positions with discs stacked in their columns, [GetKey]
    gives the same key when, and only when, the second position has the
    masks of the first or the masks of its mirror image: the key tells a
    board up to the reflection of its columns. *)
Theorem GetKey_canonical p q :
  stacked p -> stacked q ->
  (GetKey p = GetKey q <->
   (Board q = Board p /\ Mask q = Mask p) \/
   (Board q = Board (mirrored p) /\ Mask q = Mask (mirrored p))).
Proof.
  intros [hs Hp]%stacked_piled [hs' Hq]%stacked_piled.
  pose proof (piled_mirror _ _ _ Hp) as Hmp. pose proof (piled_mirror _ _ _ Hq) as Hmq.
  destruct (piled_board _ _ _ Hp) as [Hpb Hpm]. destruct (piled_board _ _ _ Hq) as [Hqb Hqm].
  rewrite !GetKey_min. unfold mirrored. rewrite !get_mirrored_bitmasks_eq. cbn [Board Mask].
  rewrite (piled_key _ _ _ Hp), (piled_key _ _ _ Hq),
          (piled_key _ _ _ Hmp), (piled_key _ _ _ Hmq).
  split.
  - intros Hkey.
    assert (Hcases :
      Board p + Mask p = Board q + Mask q \/
      Board p + Mask p = mirror_bits (Board q) + mirror_bits (Mask q) \/
      mirror_bits (Board p) + mirror_bits (Mask p) = Board q + Mask q \/
      mirror_bits (Board p) + mirror_bits (Mask p) =
        mirror_bits (Board q) + mirror_bits (Mask q)) by lia.
    destruct Hcases as [Hk|[Hk|[Hk|Hk]]].
    + destruct (key_injective _ _ _ _ _ _ Hp Hq Hk) as [-> ->]. now left.
    + destruct (key_injective _ _ _ _ _ _ Hp Hmq Hk) as [Hb Hm]. right.
      rewrite Hb, Hm, !mirror_involutive by trivial. now split.
    + destruct (key_injective _ _ _ _ _ _ Hmp Hq Hk) as [Hb Hm]. now right.
    + destruct (key_injective _ _ _ _ _ _ Hmp Hmq Hk) as [Hb Hm]. left.
      apply (f_equal mirror_bits) in Hb, Hm.
      rewrite !mirror_involutive in Hb, Hm by trivial. now split.
  - intros [[-> ->]|[-> ->]]; [reflexivity|].
    rewrite !mirror_involutive by trivial. apply Z.min_comm.
Qed.

Lemma GetKey_canonical_witness :
  GetKey (Play NewPosition 0) = GetKey (Play NewPosition 6).
Proof.
  apply GetKey_canonical.
  - apply reachable_stacked. reach.
  - apply reachable_stacked. reach.
  - right. split; reflexivity.
Defined.

End Keys.

(** ** Scores, masks and move sequences *)

Section Scores.

(** ** Counting *)

Lemma count_le (f g : Z -> bool) l :
  (forall x, f x = true -> g x = true) ->
  (List.length (filter f l) <= List.length (filter g l))%nat.
Proof.
  intros Himp. induction l as [|x l IH]; cbn [filter]; [lia|].
  destruct (f x) eqn:Hf; [rewrite (Himp x Hf); cbn [List.length]; lia|].
  destruct (g x); cbn [List.length]; lia.
Qed.

Lemma count_split (f g h : Z -> bool) l :
  (forall x, h x = xorb (f x) (g x)) -> (forall x, g x = true -> f x = true) ->
  (List.length (filter f l) = List.length (filter h l) + List.length (filter g l))%nat.
Proof.
  intros Hx Himp. induction l as [|x l IH]; cbn [filter]; [reflexivity|].
  rewrite (Hx x). specialize (Himp x).
  destruct (f x), (g x); cbn [xorb List.length]; try lia.
Qed.

Lemma popcount_subset a b :
  subset a b -> is_u64 b -> popcount a <= popcount b.
Proof.
  intros Hab Hb.
  assert (Ha : is_u64 a) by (unfold subset in Hab; rewrite <- Hab, Z.land_comm; now apply land_u64_l).
  rewrite (popcount_testbits 64), (popcount_testbits 64 ltac:(lia) b) by (trivial; lia).
  apply inj_le, count_le. intros i. now apply subset_testbit.
Qed.

Lemma popcount_board_mask : popcount board_mask = BoardSize.
Proof. reflexivity. Qed.

(** The empty cells of a well-formed position are [BoardSize - moves]. *)
Lemma popcount_empty mask :
  subset mask board_mask ->
  popcount (Z.lxor board_mask mask) = BoardSize - popcount mask.
Proof.
  intros Hm. pose proof (subset_board_mask_range mask (subset_nonneg _ Hm) Hm) as Hr.
  assert (He : subset (Z.lxor board_mask mask) board_mask)
    by (apply lxor_subset; [apply Z.land_diag|exact Hm]).
  pose proof (subset_board_mask_range _ (subset_nonneg _ He) He) as Hre.
  rewrite <- popcount_board_mask.
  rewrite (popcount_testbits 64 ltac:(lia) board_mask) by apply board_mask_u64.
  rewrite (popcount_testbits 64 ltac:(lia) mask), (popcount_testbits 64 ltac:(lia) (Z.lxor _ _))
    by lia.
  rewrite (count_split (Z.testbit board_mask) (Z.testbit mask)
             (Z.testbit (Z.lxor board_mask mask))).
  - lia.
  - intros i. apply Z.lxor_spec.
  - intros i. now apply subset_testbit.
Qed.

(** X2.  On a well-formed position [ScoreMove] is the number of cells of
    the winning mask it computes, and at most the number of empty cells,
    [BoardSize - moves]: its [uint8] result does not wrap. *)
Theorem ScoreMove_bound p move_bit :
  well_formed p ->
  ScoreMove p move_bit =
    popcount (compute_winning_position (Z.lor (Board p) move_bit) (Mask p)) /\
  0 <= ScoreMove p move_bit <= BoardSize - moves p.
Proof.
  intros (_ & Hmoves & Hm & _). unfold ScoreMove.
  destruct (compute_winning_position_masked (Z.lor (Board p) move_bit) (Mask p)) as [r Hr].
  rewrite Hr.
  assert (He : subset (Z.lxor board_mask (Mask p)) board_mask)
    by (apply lxor_subset; [apply Z.land_diag|exact Hm]).
  pose proof (subset_board_mask_range _ (subset_nonneg _ He) He) as Hre.
  assert (Hu : is_u64 (Z.lxor board_mask (Mask p))) by (unfold is_u64; lia).
  assert (Hsub : subset (Z.land r (Z.lxor board_mask (Mask p))) (Z.lxor board_mask (Mask p))).
  { unfold subset. now rewrite <- Z.land_assoc, Z.land_diag. }
  rewrite count_ones_popcount by (rewrite Z.land_comm; now apply land_u64_l).
  split; [reflexivity|]. split; [apply popcount_nonneg|].
  rewrite Hmoves, <- popcount_empty by trivial. now apply popcount_subset.
Qed.

Lemma ScoreMove_bound_witness :
  well_formed floating /\
  ScoreMove floating (2 ^ 28) = 3 /\
  ScoreMove floating (2 ^ 28) =
    popcount (compute_winning_position (Z.lor (Board floating) (2 ^ 28))
                                       (Mask floating)) /\
  0 <= ScoreMove floating (2 ^ 28) <= BoardSize - moves floating.
Proof.
  assert (Hwf : well_formed floating) by (repeat split).
  exact (conj Hwf (conj eq_refl (ScoreMove_bound floating (2 ^ 28) Hwf))).
Defined.

(** X3.  The bits of the layout masks: [bottom_mask_col] and
    [top_mask_col] are the bottom and the top usable cell of the column,
    [column_mask] its [H] usable cells, [bottom_mask] the bottom cells of
    the [W] columns and [board_mask] the usable cells of the [W] columns,
    sentinel rows left out. *)
Theorem masks_geometry col i :
  0 <= col < W -> 0 <= i ->
  Z.testbit (bottom_mask_col col) i = (i =? col * (H + 1)) /\
  Z.testbit (top_mask_col col) i = (i =? H - 1 + col * (H + 1)) /\
  Z.testbit (column_mask col) i = ((col * (H + 1) <=? i) && (i <? col * (H + 1) + H)) /\
  Z.testbit bottom_mask i = ((i <? W * (H + 1)) && (i mod (H + 1) =? 0)) /\
  Z.testbit board_mask i = ((i <? W * (H + 1)) && (i mod (H + 1) <? H)).
Proof.
  intros Hcol Hi.
  rewrite bottom_mask_col_value, top_mask_col_value, testbit_column_mask by trivial.
  rewrite !Z.pow2_bits_eqb by (unfold W, H in *; lia).
  rewrite !(Z.eqb_sym i). repeat split.
  - destruct (Z.lt_ge_cases i 49) as [Hlt|Hge].
    + apply Bool.eqb_prop.
      apply (checked_upto
        (fun i => Bool.eqb (Z.testbit bottom_mask i) ((i <? W * (H + 1)) && (i mod (H + 1) =? 0))) 49);
        [vm_compute; reflexivity|lia].
    + replace (i <? W * (H + 1)) with false by (symmetry; apply Z.ltb_ge; exact Hge).
      apply Z.bits_above_log2; [rewrite bottom_mask_value; lia|].
      rewrite bottom_mask_value. change (Z.log2 4432676798593) with 42. lia.
  - now apply testbit_board_mask.
Qed.

Lemma masks_geometry_witness :
  Z.testbit (bottom_mask_col 3) 21 = (21 =? 3 * (H + 1)) /\
  Z.testbit (top_mask_col 3) 21 = (21 =? H - 1 + 3 * (H + 1)) /\
  Z.testbit (column_mask 3) 21 = ((3 * (H + 1) <=? 21) && (21 <? 3 * (H + 1) + H)) /\
  Z.testbit bottom_mask 21 = ((21 <? W * (H + 1)) && (21 mod (H + 1) =? 0)) /\
  Z.testbit board_mask 21 = ((21 <? W * (H + 1)) && (21 mod (H + 1) <? H)).
Proof. apply (masks_geometry 3 21); [unfold W; lia|lia]. Defined.

(** X7.  [PositionFromMoves] returns no position: the empty sequence is
    answered [InvalidColumn] with column -1, a sequence that starts with a
    digit [InvalidFullColumnMove] with that digit plus one and index 0, and
    any other sequence [InvalidCharacter] with its first character and
    index 0. *)
Theorem PositionFromMoves_answer move_sequence :
  PositionFromMoves move_sequence =
  match move_sequence with
  | [] => Err (InvalidColumn (-1) 0)
  | c :: _ =>
      if (48 <=? c) && (c <=? 57) then Err (InvalidFullColumnMove (c - 48 + 1) 0)
      else Err (InvalidCharacter c 0)
  end.
Proof.
  destruct move_sequence as [|c rest]; [reflexivity|].
  apply PositionFromMoves_first_round.
Qed.

Lemma winning_cell p i :
  subset (Board p) board_mask -> subset (Mask p) board_mask -> 0 <= i ->
  (Z.testbit (winning_positions p) i = true <->
   in_board i = true /\ Z.testbit (Mask p) i = false /\ completes (Board p) i).
Proof. intros Hb Hm Hi. now apply compute_winning_position_cells. Qed.

End Scores.

(** ** Winning moves *)

Section WinningMoves.

Lemma testbit_with_disc b i x :
  0 <= i -> Z.testbit (Z.lor b (2 ^ i)) x = Z.testbit b x || (i =? x).
Proof.
  intros Hi. rewrite Z.lor_spec. destruct (Z.lt_ge_cases x 0) as [Hx|Hx].
  - rewrite !Z.testbit_neg_r by trivial. symmetry. apply Z.eqb_neq. lia.
  - now rewrite Z.pow2_bits_eqb.
Qed.

(** A disc on the free cell of a window with three discs makes four. *)
Lemma aligned_with_disc b i d k :
  0 <= i -> 0 < d -> 0 <= k < 4 -> three_of_four b i d k -> aligned (Z.lor b (2 ^ i)) d.
Proof.
  intros Hi Hd Hk Hw. unfold three_of_four in Hw.
  assert (Hbase : 0 <= i - k * d).
  { destruct (Z.eq_dec k 0) as [->|Hk0]; [lia|].
    pose proof (Hw 0 ltac:(lia) ltac:(lia)) as H0.
    destruct (Z.lt_ge_cases (i + (0 - k) * d) 0) as [Hneg|Hpos]; [|lia].
    now rewrite Z.testbit_neg_r in H0. }
  assert (Hbits : forall j, 0 <= j < 4 ->
    Z.testbit (Z.lor b (2 ^ i)) (i - k * d + j * d) = true).
  { intros j Hj. rewrite testbit_with_disc by trivial.
    destruct (Z.eq_dec j k) as [->|Hne].
    - replace (i - k * d + k * d) with i by lia. rewrite Z.eqb_refl. apply orb_true_r.
    - replace (i - k * d + j * d) with (i + (j - k) * d) by lia.
      now rewrite Hw. }
  exists (i - k * d). split; [exact Hbase|].
  pose proof (Hbits 0 ltac:(lia)) as H0. pose proof (Hbits 1 ltac:(lia)) as H1.
  pose proof (Hbits 2 ltac:(lia)) as H2. pose proof (Hbits 3 ltac:(lia)) as H3.
  replace (i - k * d + 0 * d) with (i - k * d) in H0 by lia.
  replace (i - k * d + 1 * d) with (i - k * d + d) in H1 by lia.
  auto.
Qed.

(** Four in a line that the new disc has made hold it, and three discs
    that were there. *)
Lemma aligned_new_disc b i d :
  0 <= i -> 0 < d -> aligned (Z.lor b (2 ^ i)) d -> ~ aligned b d ->
  exists k, 0 <= k < 4 /\ three_of_four b i d k.
Proof.
  intros Hi Hd (i0 & Hi0 & H0 & H1 & H2 & H3) Hnot.
  rewrite testbit_with_disc in H0, H1, H2, H3 by trivial.
  assert (Hk : exists k, 0 <= k < 4 /\ i = i0 + k * d).
  { destruct (Z.eq_dec i i0); [exists 0; lia|].
    destruct (Z.eq_dec i (i0 + d)); [exists 1; lia|].
    destruct (Z.eq_dec i (i0 + 2 * d)); [exists 2; lia|].
    destruct (Z.eq_dec i (i0 + 3 * d)); [exists 3; lia|].
    exfalso. apply Hnot. exists i0.
    replace (i =? i0) with false in H0 by (symmetry; now apply Z.eqb_neq).
    replace (i =? i0 + d) with false in H1 by (symmetry; now apply Z.eqb_neq).
    replace (i =? i0 + 2 * d) with false in H2 by (symmetry; now apply Z.eqb_neq).
    replace (i =? i0 + 3 * d) with false in H3 by (symmetry; now apply Z.eqb_neq).
    rewrite orb_false_r in H0, H1, H2, H3. auto. }
  destruct Hk as (k & Hk & ->). exists k. split; [exact Hk|].
  intros j Hj Hne.
  assert (Hjs : j = 0 \/ j = 1 \/ j = 2 \/ j = 3) by lia.
  assert (Hother : forall e, e <> i0 + k * d ->
    Z.testbit b e || (i0 + k * d =? e) = true -> Z.testbit b e = true).
  { intros e He Hb. replace (i0 + k * d =? e) with false in Hb
      by (symmetry; apply Z.eqb_neq; lia). now rewrite orb_false_r in Hb. }
  destruct Hjs as [->|[->|[->| ->]]].
  - replace (i0 + k * d + (0 - k) * d) with i0 by lia. apply Hother; [nia|exact H0].
  - replace (i0 + k * d + (1 - k) * d) with (i0 + d) by lia. apply Hother; [nia|exact H1].
  - replace (i0 + k * d + (2 - k) * d) with (i0 + 2 * d) by lia. apply Hother; [nia|exact H2].
  - replace (i0 + k * d + (3 - k) * d) with (i0 + 3 * d) by lia. apply Hother; [nia|exact H3].
Qed.

Lemma with_disc_subset b i :
  subset b board_mask -> 0 <= i -> in_board i = true -> subset (Z.lor b (2 ^ i)) board_mask.
Proof.
  intros Hb Hi Hin. apply subset_bits. intros x Hx. rewrite testbit_with_disc by trivial.
  intros [Hbx|Heq%Z.eqb_eq]%orb_true_iff.
  - now apply (subset_testbit _ _ _ Hb).
  - subst x. now rewrite testbit_board_mask.
Qed.

Lemma IsWinningMove_Play stacked_p col :
  stacked stacked_p -> 0 <= col < W -> Z.land (Mask stacked_p) (top_mask_col col) = 0 ->
  compute_won_position (Board stacked_p) = false ->
  (IsWinningMove stacked_p col = true <->
   compute_won_position
     (Z.lxor (Board (Play stacked_p col)) (Mask (Play stacked_p col))) = true).
Proof.
  intros Hst Hcol Hroom Hnot. set (p := stacked_p) in *.
  destruct (Play_drops p col Hst Hcol Hroom) as (h & Hh & Hbits & _ & Hmover & _).
  pose proof (stacked_well_formed p Hst) as Hwf.
  pose proof Hwf as (Hsub & _ & Hm & Hb).
  rewrite Hmover. set (i := h + col * (H + 1)) in *.
  assert (Hi : 0 <= i) by (unfold i, W, H in *; lia).
  assert (Hin : in_board i = true).
  { rewrite <- testbit_board_mask by trivial. apply board_mask_cell; trivial. }
  assert (Hfree : Z.testbit (Mask p) i = false) by (unfold i; rewrite Hbits by lia; apply Z.ltb_irrefl).
  assert (Habove : Z.testbit (Mask p) (i + 1) = false).
  { unfold i. replace (h + col * (H + 1) + 1) with (h + 1 + col * (H + 1)) by lia.
    destruct (Z.eq_dec (h + 1) H) as [->|Hne].
    - apply well_formed_sentinel; [exact Hwf|lia].
    - rewrite Hbits by lia. apply Z.ltb_ge. lia. }
  assert (Hposs : forall r, 0 <= r < H ->
    (Z.testbit (Possible p) (r + col * (H + 1)) = true <-> r = h)).
  { intros r Hr. rewrite (Possible_cells p r col Hst) by (trivial; lia).
    rewrite (Hbits r Hr). destruct (Z.eqb_spec r 0) as [->|Hr0]; cbn [orb].
    - destruct (Z.ltb_spec 0 h); cbn [negb]; split; (discriminate || lia || reflexivity).
    - rewrite Hbits by lia.
      destruct (Z.ltb_spec (r - 1) h), (Z.ltb_spec r h); cbn [negb andb];
        split; (discriminate || lia || reflexivity). }
  pose proof (with_disc_subset _ i Hb Hi Hin) as Hn.
  rewrite compute_won_position_folds by (now apply subset_nonneg).
  assert (Hnone : ~ (aligned (Board p) (H + 1) \/ aligned (Board p) H \/
                     aligned (Board p) (H + 2) \/ aligned (Board p) 1)).
  { intros Ha. apply compute_won_position_folds in Ha; [|now apply subset_nonneg].
    congruence. }
  rewrite IsWinningMove_bit by trivial. split.
  - intros (r & Hr & Hw & Hp). apply Hposs in Hp; [|exact Hr]. subst r. fold i in Hw.
    apply winning_cell in Hw; trivial. destruct Hw as (_ & _ & Hc).
    destruct Hc as [Hv|(d & k & Hd & Hk & Hw)].
    + right; right; right. apply (aligned_with_disc _ i 1 3); trivial; lia.
    + cbn [In] in Hd. destruct Hd as [<-|[<-|[<-|[]]]];
        [left|right; left|right; right; left];
        apply (aligned_with_disc _ i _ k); trivial; unfold H; lia.
  - intros Ha.
    assert (Hc : completes (Board p) i).
    { unfold completes. cbn [In].
      destruct Ha as [Ha|[Ha|[Ha|Ha]]].
      - apply aligned_new_disc in Ha; [|trivial|unfold H; lia|tauto].
        destruct Ha as (k & Hk & Hw). right. exists (H + 1), k. auto.
      - apply aligned_new_disc in Ha; [|trivial|unfold H; lia|tauto].
        destruct Ha as (k & Hk & Hw). right. exists H, k. auto.
      - apply aligned_new_disc in Ha; [|trivial|unfold H; lia|tauto].
        destruct Ha as (k & Hk & Hw). right. exists (H + 2), k. auto.
      - apply aligned_new_disc in Ha; [|trivial|lia|tauto].
        destruct Ha as (k & Hk & Hw). left.
        destruct (Z.eq_dec k 3) as [->|Hk3]; [exact Hw|]. exfalso.
        pose proof (Hw (k + 1) ltac:(lia) ltac:(lia)) as Hup.
        replace (i + (k + 1 - k) * 1) with (i + 1) in Hup by lia.
        apply (subset_testbit _ _ _ Hsub) in Hup. congruence. }
    exists h. split; [exact Hh|]. fold i. split.
    + apply winning_cell; auto.
    + now apply Hposs.
Qed.

(** X14.  On a position reached by play in which the current player has
    not yet four in a line, and for a column that has room, [IsWinningMove]
    is true when, and only when, the player who moves has four in a line
    once [Play] has put the disc in that column. *)
Theorem IsWinningMove_wins p col :
  reachable p -> 0 <= col < W -> Z.land (Mask p) (top_mask_col col) = 0 ->
  compute_won_position (Board p) = false ->
  (IsWinningMove p col = true <->
   compute_won_position (Z.lxor (Board (Play p col)) (Mask (Play p col))) = true).
Proof. intros Hp. apply IsWinningMove_Play. now apply reachable_stacked. Qed.

Lemma IsWinningMove_wins_witness :
  IsWinningMove three_each 3 = true /\
  compute_won_position
    (Z.lxor (Board (Play three_each 3)) (Mask (Play three_each 3))) = true.
Proof.
  split; [reflexivity|].
  apply (proj1 (IsWinningMove_wins three_each 3
                  ltac:(reach) ltac:(unfold W; lia) eq_refl eq_refl)).
  reflexivity.
Defined.

End WinningMoves.

(** ** Blocking moves *)

Section Blocking.

(** A word [x] with [x & (x-1) = 0] has one bit at most. *)
Lemma single_bit x i j :
  0 < x -> Z.land x (x - 1) = 0 ->
  Z.testbit x i = true -> Z.testbit x j = true -> i = j.
Proof.
  intros Hx Hz Hi Hj.
  assert (Hk : x = 2 ^ Z.log2 x).
  { destruct (Z.log2_spec x Hx) as [Hlo Hhi].
    destruct (Z.eq_dec x (2 ^ Z.log2 x)) as [|Hne]; [trivial|exfalso].
    assert (Hp : 0 < 2 ^ Z.log2 x) by (apply Z.pow_pos_nonneg; [lia|apply Z.log2_nonneg]).
    assert (Hl : Z.log2 (x - 1) = Z.log2 x).
    { apply Z.log2_unique; [apply Z.log2_nonneg|]. lia. }
    apply (f_equal (fun z => Z.testbit z (Z.log2 x))) in Hz.
    rewrite Z.land_spec, Z.bits_0, Z.bit_log2 in Hz by trivial.
    rewrite <- Hl, Z.bit_log2 in Hz by lia. discriminate. }
  pose proof (Z.log2_nonneg x) as Hn.
  rewrite Hk in Hi, Hj. rewrite Z.pow2_bits_eqb in Hi, Hj by trivial.
  apply Z.eqb_eq in Hi, Hj. congruence.
Qed.

(** X16.  Every cell [PossibleNonLosingMoves] returns is a cell of
    [Possible], has no winning cell of the opponent directly above it, and
    is the one cell of [Possible] on which the opponent wins, whenever
    there is such a cell: the moves returned block every threat the
    opponent can play at once. *)
Theorem PossibleNonLosingMoves_blocks p i :
  0 <= i -> Z.testbit (PossibleNonLosingMoves p) i = true ->
  Z.testbit (Possible p) i = true /\
  Z.testbit (opponent_winning_position p) (i + 1) = false /\
  (forall j, 0 <= j -> Z.testbit (Possible p) j = true ->
     Z.testbit (opponent_winning_position p) j = true -> j = i).
Proof.
  intros Hi. unfold PossibleNonLosingMoves.
  pose proof (Possible_u64 p) as Hu.
  generalize (opponent_winning_position p) (Possible p) Hu. clear Hu.
  intros opponent_wins possible Hu.
  assert (Hf : is_u64 (Z.land possible opponent_wins)) by now apply land_u64_l.
  assert (Hbelow : forall r, Z.testbit (Z.land r (not64 (shr64 opponent_wins 1))) i = true ->
                             Z.testbit r i = true /\ Z.testbit opponent_wins (i + 1) = false).
  { intros r Hr. rewrite Z.land_spec in Hr. apply andb_true_iff in Hr as [Hr Hn].
    split; [trivial|]. unfold not64, shr64 in Hn.
    rewrite testbit_wrap64, Z.lnot_spec, Z.shiftr_spec in Hn by trivial.
    destruct (Z.testbit opponent_wins (i + 1)); [|reflexivity].
    rewrite andb_false_r in Hn. discriminate. }
  unfold is_u64 in Hf.
  destruct (Z.ltb_spec 0 (Z.land possible opponent_wins)) as [Hpos|Hzero].
  - unfold sub64. rewrite wrap64_small by (unfold is_u64; lia).
    destruct (Z.ltb_spec 0 (Z.land (Z.land possible opponent_wins)
                                   (Z.land possible opponent_wins - 1))) as [Hmany|Hone].
    + rewrite Z.bits_0. discriminate.
    + intros Hr. apply Hbelow in Hr as [Hr Hn].
      assert (Hz : Z.land (Z.land possible opponent_wins)
                          (Z.land possible opponent_wins - 1) = 0).
      { assert (0 <= Z.land (Z.land possible opponent_wins)
                            (Z.land possible opponent_wins - 1))
          by (apply Z.land_nonneg; left; lia). lia. }
      split; [|split; [exact Hn|]].
      * rewrite Z.land_spec in Hr. now apply andb_true_iff in Hr.
      * intros j Hj Hp Ho. apply (single_bit _ j i Hpos Hz); [|exact Hr].
        now rewrite Z.land_spec, Hp, Ho.
  - intros Hr. apply Hbelow in Hr as [Hr Hn].
    split; [exact Hr|split; [exact Hn|]].
    intros j Hj Hp Ho. exfalso.
    assert (Hz : Z.land possible opponent_wins = 0) by lia.
    apply (f_equal (fun z => Z.testbit z j)) in Hz.
    rewrite Z.land_spec, Hp, Ho, Z.bits_0 in Hz. discriminate.
Qed.

Lemma PossibleNonLosingMoves_blocks_witness :
  Z.testbit (Possible single_threat) 28 = true /\
  Z.testbit (opponent_winning_position single_threat) (28 + 1) = false /\
  (forall j, 0 <= j -> Z.testbit (Possible single_threat) j = true ->
     Z.testbit (opponent_winning_position single_threat) j = true -> j = 28).
Proof.
  apply (PossibleNonLosingMoves_blocks single_threat 28); [lia|reflexivity].
Defined.

End Blocking.
